(** * log_to_string: a growable-buffer [vsnprintf]

    Shallow embedding of [src/log-to-string.c] and proofs of the properties
    its specification states.

    The C function calls six library routines: [malloc], [realloc], [free],
    [va_copy], [va_end] and [vsnprintf].  They are modelled as operations of
    a small state monad over a [world] (heap, live [va_list] objects, a
    counter of allocator calls and a trace of the calls made).  What the
    library is free to decide, namely whether an allocation is granted and
    what the formatter reports and stores, is collected in a record [Libc]
    over which the whole development is parametric.

    [int] is a 32-bit two's complement integer whose arithmetic wraps
    around; [size_t] is an unsigned integer of 32 or 64 bits, as the data
    model of the library has it. *)

From Stdlib Require Import ZArith Lia Strings.String Strings.Ascii Strings.Byte.
From Stdlib Require Import DecimalString.
From stdpp Require Import gmap list.

Open Scope Z_scope.

(** ** Machine integers *)

Definition INT_MAX : Z := 2147483647.
Definition INT_MIN : Z := -2147483648.

(** The value of an [int] expression whose mathematical value is [z].
    ISO C leaves signed overflow undefined; the model wraps around, as
    two's complement hardware does. *)
Definition int_wrap (z : Z) : Z := (z + 2 ^ 31) mod 2 ^ 32 - 2 ^ 31.

(** The two data models with a 32-bit [int]. *)
Inductive data_model :=
| ILP32
| LP64.

Definition size_bits (m : data_model) : Z :=
  match m with
  | ILP32 => 32
  | LP64 => 64
  end.

(** Conversion of an [int] to [size_t], as done at each call of [malloc],
    [realloc] and [vsnprintf]. *)
Definition to_size_t (m : data_model) (z : Z) : Z := z mod 2 ^ size_bits m.

Definition PTRDIFF_MAX (m : data_model) : Z := 2 ^ (size_bits m - 1) - 1.

(** ** Values *)

(** A [char *]. *)
Inductive pointer :=
| NULL
| Addr (b : positive).

(** A variadic argument, type-erased. *)
Inductive arg :=
| ArgInt (i : Z)
| ArgStr (s : string).

(** A heap block: its capacity in bytes and the bytes stored from its
    start (what lies behind them is indeterminate). *)
Record block := Block { blk_size : Z; blk_bytes : list byte }.

(** The allocator's answer to one request; a granted [realloc] either
    resizes in place or moves the block. *)
Inductive verdict :=
| Refuse
| Grant (moved : bool).

(** What the platform and its C library decide.  [render bound fmt args]
    is the formatter called with a buffer of [bound] bytes on the arguments
    [args]: the [int] it returns, the bytes it stores and the state it
    leaves the argument list in.  [alloc_policy k sz] answers the [k]-th
    allocator call, a request for [sz] bytes. *)
Record Libc := {
  model : data_model;
  render : Z -> string -> list arg -> Z * list byte * list arg;
  alloc_policy : nat -> Z -> verdict
}.

(** ** The world *)

(** The library calls made, in order.  A size is recorded as the [int] the
    caller passed; the callee receives [to_size_t] of it. *)
Inductive event :=
| EvMalloc (size : Z) (r : pointer)
| EvRealloc (b : positive) (size : Z) (r : pointer)
| EvFree (b : positive)
| EvVaCopy (dst src : positive)
| EvVsnprintf (b : positive) (size : Z) (ap : positive) (n : Z)
| EvVaEnd (ap : positive).

Record world := World {
  heap : gmap positive block;
  va_lists : gmap positive (list arg);
  clock : nat;
  trace : list event
}.

Definition set_heap (h : gmap positive block) (w : world) : world :=
  World h (va_lists w) (clock w) (trace w).

Definition set_va_lists (v : gmap positive (list arg)) (w : world) : world :=
  World (heap w) v (clock w) (trace w).

Definition tick (w : world) : world :=
  World (heap w) (va_lists w) (S (clock w)) (trace w).

Definition emit (e : event) (w : world) : world :=
  World (heap w) (va_lists w) (clock w) (trace w ++ [e]).

(** ** The monad *)

(** A computation returns a value and a world, or leaves the contract of a
    library call ([Fault]: undefined behaviour), or is still running when
    the fuel is spent ([Spin], with the world reached so far). *)
Inductive outcome (A : Type) :=
| Ok (a : A) (w : world)
| Fault
| Spin (w : world).

Arguments Ok {A} a w.
Arguments Fault {A}.
Arguments Spin {A} w.

Definition M (A : Type) : Type := world -> outcome A.

Definition ret {A} (a : A) : M A := fun w => Ok a w.

Definition bind {A B} (m : M A) (k : A -> M B) : M B :=
  fun w =>
    match m w with
    | Ok a w' => k a w'
    | Fault => Fault
    | Spin w' => Spin w'
    end.

Notation "x <- m ;; k" := (bind m (fun x => k))
  (at level 100, m at next level, right associativity).

(** ** Buffers as byte lists *)

(** The first [n] elements of [l], with the count in [Z]. *)
Fixpoint takeZ {A} (n : Z) (l : list A) : list A :=
  match l with
  | [] => []
  | x :: l' => if 0 <? n then x :: takeZ (n - 1) l' else []
  end.

(** Storing [new] at the start of a region that held [old]. *)
Definition overwrite (new old : list byte) : list byte :=
  new ++ drop (length new) old.

(** The C string at the start of a region: the bytes before the first
    [NUL], if there is one. *)
Fixpoint c_string (l : list byte) : option (list byte) :=
  match l with
  | [] => None
  | x :: l' =>
      if Byte.eqb x x00 then Some []
      else match c_string l' with
           | Some s => Some (x :: s)
           | None => None
           end
  end.

Section Program.

Variable libc : Libc.

(** ** The library calls *)

Definition malloc (size : Z) : M pointer := fun w =>
  let sz := to_size_t (model libc) size in
  match alloc_policy libc (clock w) sz with
  | Refuse => Ok NULL (emit (EvMalloc size NULL) (tick w))
  | Grant _ =>
      let b := fresh (dom (heap w)) in
      Ok (Addr b)
         (emit (EvMalloc size (Addr b))
            (set_heap (<[b := Block sz []]> (heap w)) (tick w)))
  end.

(** A refused [realloc] leaves the old block allocated and untouched; a
    granted one keeps the bytes that fit.  A request for no bytes is a
    request like any other. *)
Definition realloc (p : pointer) (size : Z) : M pointer :=
  match p with
  | NULL => malloc size
  | Addr b => fun w =>
      let sz := to_size_t (model libc) size in
      match heap w !! b with
      | None => Fault
      | Some blk =>
          match alloc_policy libc (clock w) sz with
          | Refuse => Ok NULL (emit (EvRealloc b size NULL) (tick w))
          | Grant false =>
              Ok (Addr b)
                 (emit (EvRealloc b size (Addr b))
                    (set_heap
                       (<[b := Block sz (takeZ sz (blk_bytes blk))]> (heap w))
                       (tick w)))
          | Grant true =>
              let b' := fresh (dom (heap w)) in
              Ok (Addr b')
                 (emit (EvRealloc b size (Addr b'))
                    (set_heap
                       (<[b' := Block sz (takeZ sz (blk_bytes blk))]>
                          (delete b (heap w)))
                       (tick w)))
          end
      end
  end.

(** [free(NULL)] does nothing; freeing what is not allocated is undefined. *)
Definition free (p : pointer) : M unit :=
  match p with
  | NULL => ret tt
  | Addr b => fun w =>
      match heap w !! b with
      | None => Fault
      | Some _ => Ok tt (emit (EvFree b) (set_heap (delete b (heap w)) w))
      end
  end.

(** [va_copy(dst, src)] with [dst] a new object. *)
Definition va_copy (src : positive) : M positive := fun w =>
  match va_lists w !! src with
  | None => Fault
  | Some args =>
      let dst := fresh (dom (va_lists w)) in
      Ok dst
         (emit (EvVaCopy dst src)
            (set_va_lists (<[dst := args]> (va_lists w)) w))
  end.

Definition va_end (ap : positive) : M unit := fun w =>
  match va_lists w !! ap with
  | None => Fault
  | Some _ =>
      Ok tt (emit (EvVaEnd ap) (set_va_lists (delete ap (va_lists w)) w))
  end.

(** [vsnprintf(buffer, size, fmt, ap)]: the buffer must be allocated with
    room for [size] bytes and [ap] must be live.  At most [size] bytes
    are stored, and [ap] is left in the state the formatter consumed it
    to. *)
Definition vsnprintf (buffer : pointer) (size : Z) (fmt : string)
    (ap : positive) : M Z :=
  match buffer with
  | NULL => fun _ => Fault
  | Addr b => fun w =>
      let bound := to_size_t (model libc) size in
      match heap w !! b, va_lists w !! ap with
      | Some blk, Some args =>
          if bound <=? blk_size blk then
            let '(n, out, rest) := render libc bound fmt args in
            Ok n
               (emit (EvVsnprintf b size ap n)
                  (set_va_lists (<[ap := rest]> (va_lists w))
                     (set_heap
                        (<[b := Block (blk_size blk)
                                  (overwrite (takeZ bound out) (blk_bytes blk))]>
                           (heap w))
                        w)))
          else Fault
      | _, _ => Fault
      end
  end.

(** ** [log_to_string] *)

(** Lines 22 to 25: the capacity to retry with after a report [n] that
    did not fit. *)
Definition next_size (size n : Z) : Z :=
  if -1 <? n then int_wrap (n + 1) else int_wrap (size * 2).

(** How one pass through the body of [while (1)] ends. *)
Inductive pass :=
| Break (buffer : pointer)
| ReturnNull
| Continue (buffer : pointer) (size : Z).

(** Lines 13 to 32. *)
Definition loop_body (fmt : string) (vargs : positive) (buffer : pointer)
    (size : Z) : M pass :=
  vargs_copy <- va_copy vargs ;;
  n <- vsnprintf buffer size fmt vargs_copy ;;
  _ <- va_end vargs_copy ;;
  if (-1 <? n) && (n <? size) then ret (Break buffer)
  else
    let size := next_size size n in
    new_buffer <- realloc buffer size ;;
    match new_buffer with
    | NULL => _ <- free buffer ;; ret ReturnNull
    | Addr _ => ret (Continue new_buffer size)
    end.

(** Lines 12 to 35: [fuel] bounds the number of passes. *)
Fixpoint loop (fuel : nat) (fmt : string) (vargs : positive)
    (buffer : pointer) (size : Z) : M pointer :=
  match fuel with
  | O => fun w => Spin w
  | S fuel' =>
      r <- loop_body fmt vargs buffer size ;;
      match r with
      | Break buffer => ret buffer
      | ReturnNull => ret NULL
      | Continue buffer size => loop fuel' fmt vargs buffer size
      end
  end.

Definition log_to_string (fuel : nat) (fmt : string) (vargs : positive)
    : M pointer :=
  let size := 256 in
  buffer <- malloc size ;;
  match buffer with
  | NULL => ret NULL
  | Addr _ => loop fuel fmt vargs buffer size
  end.

Definition log_to_string_free (buffer : pointer) : M unit :=
  free buffer.

End Program.

(** ** Observations *)

(** The world a computation has reached, whether it returned or not. *)
Definition world_of {A} (o : outcome A) : option world :=
  match o with
  | Ok _ w => Some w
  | Fault => None
  | Spin w => Some w
  end.

(** The world and the pointer of an outcome, for use on concrete runs. *)
Definition reached {A} (o : outcome A) : world :=
  match o with
  | Ok _ w => w
  | Fault => World ∅ ∅ 0 []
  | Spin w => w
  end.

Definition returned (o : outcome pointer) : pointer :=
  match o with
  | Ok p _ => p
  | _ => NULL
  end.

(** What the formatter returns when called with capacity [size]. *)
Definition report (libc : Libc) (size : Z) (fmt : string) (args : list arg)
    : Z :=
  (render libc (to_size_t (model libc) size) fmt args).1.1.

(** The bytes that call leaves at the start of the buffer. *)
Definition stored (libc : Libc) (size : Z) (fmt : string) (args : list arg)
    : list byte :=
  takeZ (to_size_t (model libc) size)
    (render libc (to_size_t (model libc) size) fmt args).1.2.

(** The success condition of line 18. *)
Definition fits (n size : Z) : bool := (-1 <? n) && (n <? size).

(** The rendering attempts of a trace: capacity passed and length reported. *)
Fixpoint attempts (evs : list event) : list (Z * Z) :=
  match evs with
  | [] => []
  | EvVsnprintf _ size _ n :: evs' => (size, n) :: attempts evs'
  | _ :: evs' => attempts evs'
  end.

(** The capacities requested from [realloc]. *)
Fixpoint growths (evs : list event) : list Z :=
  match evs with
  | [] => []
  | EvRealloc _ size _ :: evs' => size :: growths evs'
  | _ :: evs' => growths evs'
  end.

(** An allocation request that was refused. *)
Definition refusal (e : event) : bool :=
  match e with
  | EvMalloc _ NULL => true
  | EvRealloc _ _ NULL => true
  | _ => false
  end.

(** Every [vsnprintf] of the trace reads a handle that the call just before
    it copied from [vargs], that is not [vargs], and that the call just
    after it ends; no other [va_list] operation occurs. *)
Fixpoint fresh_handles (vargs : positive) (evs : list event) : bool :=
  match evs with
  | [] => true
  | EvVaCopy dst src :: EvVsnprintf _ _ ap _ :: EvVaEnd ap' :: evs' =>
      bool_decide (src = vargs) && bool_decide (dst <> vargs)
      && bool_decide (ap = dst) && bool_decide (ap' = dst)
      && fresh_handles vargs evs'
  | EvVaCopy _ _ :: _ => false
  | EvVsnprintf _ _ _ _ :: _ => false
  | EvVaEnd _ :: _ => false
  | _ :: evs' => fresh_handles vargs evs'
  end.

(** ** Contracts of the library *)

(** The formatter returns an [int]. *)
Definition int_valued (libc : Libc) : Prop :=
  forall bound fmt args,
    INT_MIN <= (render libc bound fmt args).1.1 <= INT_MAX.

(** [text fmt args] being the complete formatted text: whenever the
    formatter reports a length below the capacity it was given, that length
    is the length of the text, and what it stored is the text and its
    terminator. *)
Definition conforming (libc : Libc) (text : string -> list arg -> list byte)
    : Prop :=
  forall bound fmt args,
    let '(n, out, _) := render libc bound fmt args in
    0 <= n < bound ->
    n = Z.of_nat (length (text fmt args)) /\ out = text fmt args ++ [x00].

(** The allocator hands out no object of more than [PTRDIFF_MAX] bytes. *)
Definition refuses_oversize (libc : Libc) : Prop :=
  forall k sz, PTRDIFF_MAX (model libc) < sz -> alloc_policy libc k sz = Refuse.

(** ** Some C libraries *)

(** A formatter for the directives [%d], [%s] and [%%]: the text and the
    arguments left over, or [None] on any other directive or on an
    argument that is missing or of the wrong kind. *)
Fixpoint expand (fmt : string) (args : list arg) : option (string * list arg) :=
  match fmt with
  | EmptyString => Some (EmptyString, args)
  | String c fmt1 =>
      if Ascii.eqb c "%" then
        match fmt1 with
        | EmptyString => None
        | String d fmt2 =>
            if Ascii.eqb d "%" then
              match expand fmt2 args with
              | Some (t, rest) => Some (String "%" t, rest)
              | None => None
              end
            else if Ascii.eqb d "d" then
              match args with
              | ArgInt i :: args' =>
                  match expand fmt2 args' with
                  | Some (t, rest) =>
                      Some (NilZero.string_of_int (Z.to_int i) ++ t, rest)%string
                  | None => None
                  end
              | _ => None
              end
            else if Ascii.eqb d "s" then
              match args with
              | ArgStr s :: args' =>
                  match expand fmt2 args' with
                  | Some (t, rest) => Some (s ++ t, rest)%string
                  | None => None
                  end
              | _ => None
              end
            else None
        end
      else
        match expand fmt1 args with
        | Some (t, rest) => Some (String c t, rest)
        | None => None
        end
  end.

Definition c99_text (fmt : string) (args : list arg) : list byte :=
  match expand fmt args with
  | Some (t, _) => list_byte_of_string t
  | None => []
  end.

(** What [vsnprintf] stores of [text] in [bound] bytes. *)
Definition truncated (bound : Z) (text : list byte) : list byte :=
  if 0 <? bound then takeZ (bound - 1) text ++ [x00] else [].

(** ISO C99: the length the whole text needs, whatever the capacity; a
    negative value on error or when the length is no [int]. *)
Definition c99_render (bound : Z) (fmt : string) (args : list arg)
    : Z * list byte * list arg :=
  match expand fmt args with
  | Some (t, rest) =>
      let text := list_byte_of_string t in
      let len := Z.of_nat (length text) in
      if len <=? INT_MAX then (len, truncated bound text, rest)
      else (-1, [], rest)
  | None => (-1, [], args)
  end.

(** Before C99 (glibc 2.0): [-1] whenever the text had to be truncated. *)
Definition legacy_render (bound : Z) (fmt : string) (args : list arg)
    : Z * list byte * list arg :=
  match expand fmt args with
  | Some (t, rest) =>
      let text := list_byte_of_string t in
      let len := Z.of_nat (length text) in
      if len <? bound then (len, truncated bound text, rest)
      else (-1, truncated bound text, rest)
  | None => (-1, [], args)
  end.

(** A formatter that fails on every call. *)
Definition failing_render (bound : Z) (fmt : string) (args : list arg)
    : Z * list byte * list arg :=
  (-1, [], args).

(** The directive [%*s] applied to a width and the empty string: [width]
    blanks.  The length is reported without the text being built, and what
    is stored is cut to the capacity beforehand. *)
Definition blanks (n : Z) : list byte := replicate (Z.to_nat n) x20.

Definition pad_render (bound : Z) (fmt : string) (args : list arg)
    : Z * list byte * list arg :=
  match args with
  | ArgInt width :: ArgStr EmptyString :: rest =>
      if (0 <=? width) && (width <=? INT_MAX) then
        (width,
         if 0 <? bound then blanks (Z.min (bound - 1) width) ++ [x00] else [],
         rest)
      else (-1, [], args)
  | _ => (-1, [], args)
  end.

(** Allocators.  The first grants what fits under [PTRDIFF_MAX] and moves
    the block at each [realloc]; the second resizes in place; the third is
    the allocator of a 32-bit system without the [PTRDIFF_MAX] check, which
    grants up to 2 GiB, in place. *)
Definition bounded_policy (m : data_model) (k : nat) (sz : Z) : verdict :=
  if sz <=? PTRDIFF_MAX m then Grant true else Refuse.

Definition in_place_policy (m : data_model) (k : nat) (sz : Z) : verdict :=
  if sz <=? PTRDIFF_MAX m then Grant false else Refuse.

Definition unchecked_policy (k : nat) (sz : Z) : verdict :=
  if sz <=? 2 ^ 31 then Grant false else Refuse.

(** The allocator that grants the first [budget] requests only. *)
Definition budget_policy (budget : nat) (k : nat) (sz : Z) : verdict :=
  if (k <? budget)%nat then Grant true else Refuse.

Definition glibc : Libc := Build_Libc LP64 c99_render (bounded_policy LP64).
Definition glibc_2_0 : Libc :=
  Build_Libc LP64 legacy_render (bounded_policy LP64).
Definition glibc_low_memory (budget : nat) : Libc :=
  Build_Libc LP64 c99_render (budget_policy budget).
Definition broken_libc : Libc :=
  Build_Libc LP64 failing_render (bounded_policy LP64).
Definition pad_libc : Libc := Build_Libc LP64 pad_render (bounded_policy LP64).
Definition unchecked_broken_libc : Libc :=
  Build_Libc ILP32 failing_render unchecked_policy.

(** A world with one block already on the heap and the caller's argument
    list at handle [1]. *)
Definition world0 (args : list arg) : world :=
  World {[ 1%positive := Block 8 [] ]} {[ 1%positive := args ]} 0 [].

(** A string of [n] stars. *)
Definition stars (n : nat) : string :=
  string_of_list_ascii (replicate n "*"%char).

(** The world in which the loop starts after [malloc] gave block [2] to a
    call made in [world0 args]. *)
Definition world1 (args : list arg) : world :=
  World (<[2%positive := Block 256 []]> {[ 1%positive := Block 8 [] ]})
    {[ 1%positive := args ]} 1 [EvMalloc 256 (Addr 2)].

(** A library whose [realloc] never moves a block, and a second world, with
    another heap, another handle for the argument list and a history. *)
Definition in_place_libc : Libc :=
  Build_Libc LP64 c99_render (in_place_policy LP64).

Definition world2 (args : list arg) : world :=
  World {[ 1%positive := Block 16 [x41]; 2%positive := Block 4 [] ]}
    {[ 7%positive := args ]} 3 [EvFree 9].

(** ** One pass, in closed form *)

(** The world after lines 14 to 16 ran in [w], where [vargs] holds [args]
    and the buffer [b] is the block [blk]. *)
Definition attempted (libc : Libc) (fmt : string) (vargs : positive)
    (args : list arg) (b : positive) (blk : block) (size : Z) (w : world)
    : world :=
  let ap := fresh (dom (va_lists w)) in
  World
    (<[b := Block (blk_size blk)
              (overwrite (stored libc size fmt args) (blk_bytes blk))]> (heap w))
    (va_lists w)
    (clock w)
    (trace w ++ [EvVaCopy ap vargs;
                 EvVsnprintf b size ap (report libc size fmt args);
                 EvVaEnd ap]).

(** The result of lines 27 to 32 in [w], the buffer [b] holding [bytes]. *)
Definition regrown (libc : Libc) (b : positive) (bytes : list byte) (size : Z)
    (w : world) : pass * world :=
  let sz := to_size_t (model libc) size in
  match alloc_policy libc (clock w) sz with
  | Refuse =>
      (ReturnNull,
       World (delete b (heap w)) (va_lists w) (S (clock w))
         (trace w ++ [EvRealloc b size NULL; EvFree b]))
  | Grant false =>
      (Continue (Addr b) size,
       World (<[b := Block sz (takeZ sz bytes)]> (heap w)) (va_lists w)
         (S (clock w)) (trace w ++ [EvRealloc b size (Addr b)]))
  | Grant true =>
      let b' := fresh (dom (heap w)) in
      (Continue (Addr b') size,
       World (<[b' := Block sz (takeZ sz bytes)]> (delete b (heap w)))
         (va_lists w) (S (clock w))
         (trace w ++ [EvRealloc b size (Addr b')]))
  end.

(** ** One pass, as a relation *)

Section PassRelation.

Variable libc : Libc.
Variables (fmt : string) (vargs : positive) (args : list arg).

(** The state a pass starts in: the caller's argument list holds [args],
    the buffer [b] is the allocated block [blk], and [size], an [int], is
    its capacity.  Every pass of a run of [log_to_string] starts in such a
    state (lemmas [malloc_live] and [pass_grown_live] below). *)
Record live (b : positive) (blk : block) (size : Z) (w : world) : Prop := Live {
  live_args : va_lists w !! vargs = Some args;
  live_buffer : heap w !! b = Some blk;
  live_size : blk_size blk = to_size_t (model libc) size;
  live_int : INT_MIN <= size <= INT_MAX
}.

(** The three ways a pass started in such a state ends. *)
Inductive pass_from (b : positive) (blk : block) (size : Z) (w : world)
  : pass -> world -> Prop :=
| pass_break :
    fits (report libc size fmt args) size = true ->
    pass_from b blk size w (Break (Addr b))
      (attempted libc fmt vargs args b blk size w)
| pass_refused size' :
    fits (report libc size fmt args) size = false ->
    size' = next_size size (report libc size fmt args) ->
    alloc_policy libc (clock w) (to_size_t (model libc) size') = Refuse ->
    pass_from b blk size w ReturnNull
      (World (delete b (heap w)) (va_lists w) (S (clock w))
         (trace (attempted libc fmt vargs args b blk size w)
            ++ [EvRealloc b size' NULL; EvFree b]))
| pass_grown size' moved b' blk' :
    fits (report libc size fmt args) size = false ->
    size' = next_size size (report libc size fmt args) ->
    alloc_policy libc (clock w) (to_size_t (model libc) size') = Grant moved ->
    delete b (heap w) !! b' = None ->
    blk' = Block (to_size_t (model libc) size')
             (takeZ (to_size_t (model libc) size')
                (overwrite (stored libc size fmt args) (blk_bytes blk))) ->
    pass_from b blk size w (Continue (Addr b') size')
      (World (<[b' := blk']> (delete b (heap w))) (va_lists w) (S (clock w))
         (trace (attempted libc fmt vargs args b blk size w)
            ++ [EvRealloc b size' (Addr b')])).

End PassRelation.

(** ** Further observations on traces *)

(** The blocks passed to [free]. *)
Fixpoint frees (evs : list event) : list positive :=
  match evs with
  | [] => []
  | EvFree b :: evs' => b :: frees evs'
  | _ :: evs' => frees evs'
  end.

(** [holds cur b]: the pointer [cur] is the address [b]. *)
Definition holds (cur : pointer) (b : positive) : bool :=
  match cur with
  | NULL => false
  | Addr c => Pos.eqb c b
  end.

(** The pointer a caller holds after the calls [evs], having held [cur]
    before them, provided each call is made on the pointer held at that
    moment: [malloc] when none is held, [vsnprintf], [realloc] and [free]
    on the one that is held.  A refused [realloc] leaves it held, a granted
    one replaces it by its result, [free] leaves none.  [None] when some
    call is made on another pointer. *)
Fixpoint held (cur : pointer) (evs : list event) : option pointer :=
  match evs with
  | [] => Some cur
  | EvMalloc _ r :: evs' =>
      match cur with
      | NULL => held r evs'
      | Addr _ => None
      end
  | EvRealloc b _ r :: evs' =>
      if holds cur b then
        held (match r with NULL => cur | Addr _ => r end) evs'
      else None
  | EvVsnprintf b _ _ _ :: evs' =>
      if holds cur b then held cur evs' else None
  | EvFree b :: evs' =>
      if holds cur b then held NULL evs' else None
  | _ :: evs' => held cur evs'
  end.

(** Whether the allocator, at its [k]-th call, refuses a request made with
    the [int] [size]. *)
Definition refuses (libc : Libc) (k : nat) (size : Z) : bool :=
  match alloc_policy libc k (to_size_t (model libc) size) with
  | Refuse => true
  | Grant _ => false
  end.

(** Whether the allocator refuses one of the requests that [evs] makes, the
    first of them being its [k]-th call.  The verdicts are the allocator's
    own: the results that the trace records are not looked at. *)
Fixpoint denied (libc : Libc) (k : nat) (evs : list event) : bool :=
  match evs with
  | [] => false
  | EvMalloc size _ :: evs' => refuses libc k size || denied libc (S k) evs'
  | EvRealloc _ size _ :: evs' => refuses libc k size || denied libc (S k) evs'
  | _ :: evs' => denied libc k evs'
  end.

(** * Proofs *)

(** ** Arithmetic of [int] and [size_t] *)

Lemma int_wrap_id z : INT_MIN <= z <= INT_MAX -> int_wrap z = z.
Proof.
  unfold int_wrap, INT_MIN, INT_MAX. intros H.
  rewrite Z.mod_small; lia.
Qed.

Lemma int_wrap_range z : INT_MIN <= int_wrap z <= INT_MAX.
Proof.
  unfold int_wrap, INT_MIN, INT_MAX.
  pose proof (Z.mod_pos_bound (z + 2 ^ 31) (2 ^ 32) ltac:(lia)). lia.
Qed.

Lemma int_wrap_mod z : int_wrap z mod 2 ^ 32 = z mod 2 ^ 32.
Proof.
  unfold int_wrap.
  rewrite Zminus_mod_idemp_l.
  f_equal. lia.
Qed.

Lemma int_wrap_congr a b :
  a mod 2 ^ 32 = b mod 2 ^ 32 -> int_wrap a = int_wrap b.
Proof.
  intros H. unfold int_wrap. f_equal.
  rewrite <- (Zplus_mod_idemp_l a), <- (Zplus_mod_idemp_l b), H. reflexivity.
Qed.

Lemma int_wrap_overflow z :
  INT_MAX < z <= 2 * INT_MAX + 1 -> int_wrap z = z - 2 ^ 32.
Proof.
  unfold int_wrap, INT_MAX. intros H.
  replace (z + 2 ^ 31) with ((z - 2 ^ 31) + 1 * 2 ^ 32) by lia.
  rewrite Z.mod_add by lia. rewrite Z.mod_small; lia.
Qed.

Lemma to_size_t_id m z : 0 <= z <= INT_MAX -> to_size_t m z = z.
Proof.
  unfold to_size_t, INT_MAX. intros H. apply Z.mod_small.
  destruct m; cbn [size_bits]; lia.
Qed.

Lemma to_size_t_negative m z :
  INT_MIN <= z < 0 -> to_size_t m z = z + 2 ^ size_bits m.
Proof.
  unfold to_size_t, INT_MIN. intros H.
  replace z with ((z + 2 ^ size_bits m) + (-1) * 2 ^ size_bits m) at 1 by lia.
  rewrite Z.mod_add by (destruct m; cbn [size_bits]; lia).
  apply Z.mod_small. destruct m; cbn [size_bits]; lia.
Qed.

(** ** Byte lists *)

Lemma takeZ_all {A} (l : list A) n : Z.of_nat (length l) <= n -> takeZ n l = l.
Proof.
  revert n. induction l as [|x l IH]; intros n H; simpl in *; [reflexivity|].
  destruct (Z.ltb_spec 0 n); [|lia].
  rewrite IH by lia. reflexivity.
Qed.

Lemma overwrite_prefix new old : new `prefix_of` overwrite new old.
Proof. unfold overwrite. apply prefix_app_r. reflexivity. Qed.

Lemma overwrite_nil new : overwrite new [] = new.
Proof. unfold overwrite. rewrite drop_nil. apply app_nil_r. Qed.

(** ** Fresh addresses *)

Lemma fresh_lookup {A} (m : gmap positive A) : m !! fresh (dom m) = None.
Proof. apply not_elem_of_dom, is_fresh. Qed.

Lemma dom_overwrite {A} (m : gmap positive A) b x y :
  m !! b = Some x -> dom (<[b := y]> m) = dom m.
Proof.
  intros H%elem_of_dom_2. rewrite dom_insert_L.
  apply subseteq_union_1_L, singleton_subseteq_l, H.
Qed.

Lemma fresh_ne {A} (m : gmap positive A) b x :
  m !! b = Some x -> fresh (dom m) <> b.
Proof.
  intros H E. pose proof (fresh_lookup m) as F. rewrite E in F. congruence.
Qed.

(** ** One pass through the loop *)

Section Pass.

Variable libc : Libc.
Variables (fmt : string) (vargs : positive) (args : list arg).

(** Lines 14 to 16 leave the argument lists as they were and the
    formatter's bytes in the buffer. *)
Lemma attempt_spec {A} (k : Z -> M A) b blk size w :
  va_lists w !! vargs = Some args ->
  heap w !! b = Some blk ->
  to_size_t (model libc) size <= blk_size blk ->
  (vargs_copy <- va_copy vargs ;;
   n <- vsnprintf libc (Addr b) size fmt vargs_copy ;;
   _ <- va_end vargs_copy ;;
   k n) w
  = k (report libc size fmt args)
      (attempted libc fmt vargs args b blk size w).
Proof.
  intros Hva Hb Hsz.
  unfold bind, va_copy. rewrite Hva.
  unfold vsnprintf. cbn [heap va_lists emit set_va_lists set_heap].
  rewrite Hb, lookup_insert_eq.
  destruct (Z.leb_spec (to_size_t (model libc) size) (blk_size blk)) as [_|]; [|lia].
  unfold attempted, report, stored.
  destruct (render libc (to_size_t (model libc) size) fmt args) as [[n out] rest].
  unfold va_end. cbn [heap va_lists emit set_va_lists set_heap clock trace].
  rewrite lookup_insert_eq.
  cbn [heap va_lists emit set_va_lists set_heap clock trace fst snd].
  rewrite insert_insert_eq, delete_insert_id by apply fresh_lookup.
  unfold emit, set_va_lists, set_heap. cbn [heap va_lists clock trace].
  rewrite <- !app_assoc. reflexivity.
Qed.

Lemma loop_body_spec b blk size w :
  va_lists w !! vargs = Some args ->
  heap w !! b = Some blk ->
  to_size_t (model libc) size <= blk_size blk ->
  loop_body libc fmt vargs (Addr b) size w =
    let n := report libc size fmt args in
    let w1 := attempted libc fmt vargs args b blk size w in
    if fits n size then Ok (Break (Addr b)) w1
    else
      let r := regrown libc b
                 (overwrite (stored libc size fmt args) (blk_bytes blk))
                 (next_size size n) w1 in
      Ok r.1 r.2.
Proof.
  intros Hva Hb Hsz. unfold loop_body.
  rewrite (attempt_spec _ b blk size w Hva Hb Hsz).
  cbv zeta. fold (fits (report libc size fmt args) size).
  destruct (fits (report libc size fmt args) size); [reflexivity|].
  set (n := report libc size fmt args).
  set (w1 := attempted libc fmt vargs args b blk size w).
  assert (H1 : heap w1 !! b = Some (Block (blk_size blk)
              (overwrite (stored libc size fmt args) (blk_bytes blk)))).
  { unfold w1, attempted. cbn [heap]. apply lookup_insert_eq. }
  unfold bind, realloc, regrown. rewrite H1.
  cbn [blk_bytes].
  destruct (alloc_policy libc (clock w1) (to_size_t (model libc) (next_size size n)))
    as [|[|]]; cbn [fst snd].
  - unfold free, ret, emit, tick, set_heap. cbn [heap va_lists clock trace].
    rewrite H1. rewrite <- app_assoc. reflexivity.
  - reflexivity.
  - reflexivity.
Qed.

End Pass.

Lemma next_size_int size n : INT_MIN <= next_size size n <= INT_MAX.
Proof. unfold next_size. destruct (-1 <? n); apply int_wrap_range. Qed.

Lemma fits_true n size : fits n size = true <-> 0 <= n < size.
Proof. unfold fits. rewrite andb_true_iff, !Z.ltb_lt. lia. Qed.

Lemma fits_false n size : fits n size = false <-> n < 0 \/ size <= n.
Proof.
  unfold fits. rewrite andb_false_iff, !Z.ltb_ge. lia.
Qed.

Section Passes.

Variable libc : Libc.
Variables (fmt : string) (vargs : positive) (args : list arg).

Lemma loop_body_cases b blk size w :
  live libc vargs args b blk size w ->
  exists r w',
    loop_body libc fmt vargs (Addr b) size w = Ok r w'
    /\ pass_from libc fmt vargs args b blk size w r w'.
Proof.
  intros [Hva Hb Hsz Hint].
  rewrite (loop_body_spec libc fmt vargs args b blk size w Hva Hb) by lia.
  cbv zeta.
  destruct (fits (report libc size fmt args) size) eqn:Hfit.
  { eexists _, _. split; [reflexivity|]. constructor. exact Hfit. }
  unfold regrown.
  set (w1 := attempted libc fmt vargs args b blk size w).
  assert (Hh : heap w1 = <[b := Block (blk_size blk)
             (overwrite (stored libc size fmt args) (blk_bytes blk))]> (heap w))
    by reflexivity.
  assert (Hc : clock w1 = clock w) by reflexivity.
  assert (Hv : va_lists w1 = va_lists w) by reflexivity.
  rewrite Hh, Hc, Hv.
  destruct (alloc_policy libc (clock w) _) as [|[|]] eqn:Hpol; cbn [fst snd].
  - eexists _, _. split; [reflexivity|].
    rewrite delete_insert_eq.
    eapply pass_refused; eauto.
  - eexists _, _. split; [reflexivity|].
    rewrite delete_insert_eq, (dom_overwrite _ _ _ _ Hb).
    eapply pass_grown; eauto.
    rewrite lookup_delete_ne by (symmetry; eapply fresh_ne; eauto).
    apply fresh_lookup.
  - eexists _, _. split; [reflexivity|].
    rewrite insert_insert_eq, <- insert_delete_eq.
    eapply pass_grown; eauto. apply lookup_delete_eq.
Qed.

(** A pass that continues hands a live state to the next one. *)
Lemma pass_grown_live b blk size w b' size' w' :
  live libc vargs args b blk size w ->
  pass_from libc fmt vargs args b blk size w (Continue (Addr b') size') w' ->
  exists blk',
    live libc vargs args b' blk' size' w'
    /\ blk_bytes blk' = takeZ (to_size_t (model libc) size')
                          (overwrite (stored libc size fmt args) (blk_bytes blk))
    /\ heap w' = <[b' := blk']> (delete b (heap w))
    /\ delete b (heap w) !! b' = None
    /\ size' = next_size size (report libc size fmt args)
    /\ fits (report libc size fmt args) size = false
    /\ alloc_policy libc (clock w) (to_size_t (model libc) size') <> Refuse.
Proof.
  intros [Hva Hb Hsz Hint] Hp. inversion Hp; subst.
  eexists (Block _ _). split; [|split; [reflexivity|]].
  - constructor; cbn [heap va_lists blk_size].
    + exact Hva.
    + apply lookup_insert_eq.
    + reflexivity.
    + apply next_size_int.
  - repeat split; try assumption. congruence.
Qed.

End Passes.

(** ** Unfolding the loop and the call *)

Section Unfolding.

Variable libc : Libc.
Variables (fmt : string) (vargs : positive) (args : list arg).

Lemma loop_S fuel b blk size w :
  live libc vargs args b blk size w ->
  exists r w',
    pass_from libc fmt vargs args b blk size w r w'
    /\ loop libc (S fuel) fmt vargs (Addr b) size w =
         match r with
         | Break p => Ok p w'
         | ReturnNull => Ok NULL w'
         | Continue p s => loop libc fuel fmt vargs p s w'
         end.
Proof.
  intros Hl.
  destruct (loop_body_cases libc fmt vargs args b blk size w Hl)
    as (r & w' & Hrun & Hp).
  exists r, w'. split; [exact Hp|].
  cbn [loop]. unfold bind at 1. rewrite Hrun.
  destruct r; reflexivity.
Qed.

(** The world in which the loop starts when [malloc] grants the buffer. *)
Lemma log_to_string_unfold fuel w :
  log_to_string libc fuel fmt vargs w =
    match alloc_policy libc (clock w) 256 with
    | Refuse =>
        Ok NULL (World (heap w) (va_lists w) (S (clock w))
                   (trace w ++ [EvMalloc 256 NULL]))
    | Grant _ =>
        let b := fresh (dom (heap w)) in
        loop libc fuel fmt vargs (Addr b) 256
          (World (<[b := Block 256 []]> (heap w)) (va_lists w)
             (S (clock w)) (trace w ++ [EvMalloc 256 (Addr b)]))
    end.
Proof.
  unfold log_to_string, bind, malloc.
  rewrite (to_size_t_id (model libc) 256) by (unfold INT_MAX; lia).
  destruct (alloc_policy libc (clock w) 256); reflexivity.
Qed.

Lemma malloc_live w :
  va_lists w !! vargs = Some args ->
  let b := fresh (dom (heap w)) in
  live libc vargs args b (Block 256 []) 256
    (World (<[b := Block 256 []]> (heap w)) (va_lists w)
       (S (clock w)) (trace w ++ [EvMalloc 256 (Addr b)])).
Proof.
  intros Hva b. constructor; cbn [heap va_lists blk_size].
  - exact Hva.
  - apply lookup_insert_eq.
  - symmetry. apply to_size_t_id. unfold INT_MAX. lia.
  - unfold INT_MIN, INT_MAX. lia.
Qed.

(** What a fitting attempt leaves in the buffer, for a conforming
    formatter. *)
Lemma fitting_attempt text size :
  conforming libc text ->
  INT_MIN <= size <= INT_MAX ->
  fits (report libc size fmt args) size = true ->
  report libc size fmt args = Z.of_nat (length (text fmt args))
  /\ stored libc size fmt args = text fmt args ++ [x00].
Proof.
  intros Hc Hint Hfit. apply fits_true in Hfit.
  assert (Hsz : to_size_t (model libc) size = size) by (apply to_size_t_id; lia).
  unfold report, stored in *. rewrite Hsz in *.
  specialize (Hc size fmt args).
  destruct (render libc size fmt args) as [[n out] rest]. cbn [fst snd] in *.
  destruct (Hc Hfit) as [Hn Hout]. split; [exact Hn|].
  subst out. apply takeZ_all. rewrite length_app. cbn [length]. lia.
Qed.

Lemma loop_complete text fuel :
  conforming libc text ->
  forall b blk size w b' w',
    live libc vargs args b blk size w ->
    loop libc fuel fmt vargs (Addr b) size w = Ok (Addr b') w' ->
    exists blk',
      heap w' !! b' = Some blk'
      /\ (text fmt args ++ [x00]) `prefix_of` blk_bytes blk'
      /\ Z.of_nat (length (text fmt args)) + 1 <= blk_size blk'.
Proof.
  intros Hc. induction fuel as [|fuel IH]; intros b blk size w b' w' Hl Hrun.
  { discriminate. }
  destruct (loop_S fuel b blk size w Hl) as (r & w1 & Hp & Heq).
  rewrite Heq in Hrun. clear Heq.
  inversion Hp; subst.
  - injection Hrun as <- <-.
    destruct (fitting_attempt text size Hc (live_int _ _ _ _ _ _ _ Hl) H)
      as [Hn Hst].
    eexists. split; [apply lookup_insert_eq|]. cbn [blk_bytes blk_size].
    split.
    + rewrite Hst. apply overwrite_prefix.
    + apply fits_true in H. rewrite (live_size _ _ _ _ _ _ _ Hl).
      rewrite to_size_t_id by (pose proof (live_int _ _ _ _ _ _ _ Hl); lia).
      lia.
  - discriminate.
  - destruct (pass_grown_live libc fmt vargs args b blk size w _ _ _ Hl Hp)
      as (blk2 & Hl2 & _).
    eapply IH; eauto.
Qed.

End Unfolding.

(** ** Argument lists and traces over a whole run *)

Section Runs.

Variable libc : Libc.
Variables (fmt : string) (vargs : positive) (args : list arg).

Lemma fresh_handles_pass ap b size n evs :
  ap <> vargs ->
  fresh_handles vargs
    ([EvVaCopy ap vargs; EvVsnprintf b size ap n; EvVaEnd ap] ++ evs)
  = fresh_handles vargs evs.
Proof.
  intros Hne. cbn [app fresh_handles].
  rewrite !bool_decide_eq_true_2 by done. reflexivity.
Qed.

(** Whatever the fuel, the loop never leaves the contract of a library
    call, and it leaves the argument lists as it found them. *)
Lemma loop_handles fuel :
  forall b blk size w,
    live libc vargs args b blk size w ->
    exists w' evs,
      world_of (loop libc fuel fmt vargs (Addr b) size w) = Some w'
      /\ trace w' = trace w ++ evs
      /\ va_lists w' = va_lists w
      /\ fresh_handles vargs evs = true.
Proof.
  induction fuel as [|fuel IH]; intros b blk size w Hl.
  { exists w, []. rewrite app_nil_r. repeat split; reflexivity. }
  destruct (loop_S libc fmt vargs args fuel b blk size w Hl)
    as (r & w1 & Hp & ->).
  assert (Hne : fresh (dom (va_lists w)) <> vargs)
    by (eapply fresh_ne, live_args, Hl).
  inversion Hp; subst.
  - eexists _, _. split; [reflexivity|]. cbn [trace va_lists attempted].
    repeat split. rewrite <- (app_nil_r [_; _; _]).
    rewrite fresh_handles_pass by exact Hne. reflexivity.
  - eexists _, _. split; [reflexivity|]. cbn [trace va_lists attempted].
    rewrite <- app_assoc. repeat split.
    rewrite fresh_handles_pass by exact Hne. reflexivity.
  - destruct (pass_grown_live libc fmt vargs args b blk size w _ _ _ Hl Hp)
      as (blk2 & Hl2 & _).
    destruct (IH _ _ _ _ Hl2) as (w' & evs & Hw & Htr & Hva & Hfh).
    exists w', ([EvVaCopy (fresh (dom (va_lists w))) vargs;
                 EvVsnprintf b size (fresh (dom (va_lists w)))
                   (report libc size fmt args);
                 EvVaEnd (fresh (dom (va_lists w)))]
                ++ EvRealloc b (next_size size (report libc size fmt args))
                     (Addr b') :: evs).
    split; [exact Hw|]. split; [|split].
    + rewrite Htr. cbn [trace attempted]. rewrite <- !app_assoc. reflexivity.
    + rewrite Hva. reflexivity.
    + rewrite fresh_handles_pass by exact Hne. exact Hfh.
Qed.

End Runs.

(** ** The events of one pass *)

Lemma attempts_app evs1 evs2 :
  attempts (evs1 ++ evs2) = attempts evs1 ++ attempts evs2.
Proof.
  induction evs1 as [|e evs1 IH]; [reflexivity|].
  destruct e; cbn [app attempts]; rewrite IH; reflexivity.
Qed.

Lemma growths_app evs1 evs2 :
  growths (evs1 ++ evs2) = growths evs1 ++ growths evs2.
Proof.
  induction evs1 as [|e evs1 IH]; [reflexivity|].
  destruct e; cbn [app growths]; rewrite IH; reflexivity.
Qed.

Lemma pass_trace libc fmt vargs args b blk size w r w1 :
  pass_from libc fmt vargs args b blk size w r w1 ->
  exists evs,
    trace w1 = trace w ++ evs
    /\ attempts evs = [(size, report libc size fmt args)]
    /\ growths evs = match r with
                     | Break _ => []
                     | _ => [next_size size (report libc size fmt args)]
                     end
    /\ existsb refusal evs = match r with
                             | ReturnNull => true
                             | _ => false
                             end.
Proof.
  intros Hp. inversion Hp; subst; cbn [trace attempted].
  - eexists. split; [reflexivity|]. repeat split.
  - eexists. rewrite <- app_assoc. split; [reflexivity|]. repeat split.
  - eexists. rewrite <- app_assoc. split; [reflexivity|]. repeat split.
Qed.

(** ** Rendering attempts over a whole run *)

Section Attempts.

Variable libc : Libc.
Variables (fmt : string) (vargs : positive) (args : list arg).

Lemma loop_trace fuel b blk size w w' :
  live libc vargs args b blk size w ->
  world_of (loop libc fuel fmt vargs (Addr b) size w) = Some w' ->
  exists evs, trace w' = trace w ++ evs.
Proof.
  intros Hl Hw.
  destruct (loop_handles libc fmt vargs args fuel b blk size w Hl)
    as (w2 & evs & Hw2 & Htr & _).
  rewrite Hw in Hw2. injection Hw2 as <-. eauto.
Qed.

(** The events of a run that continues after its first pass: those of
    the pass, then those of the rest. *)
Lemma trace_split (w w1 w' : world) evs evs1 evs2 :
  trace w' = trace w ++ evs ->
  trace w1 = trace w ++ evs1 ->
  trace w' = trace w1 ++ evs2 ->
  evs = evs1 ++ evs2.
Proof.
  intros H H1 H2. rewrite H1, <- app_assoc in H2. rewrite H in H2.
  exact (app_inv_head _ _ _ H2).
Qed.

Lemma doubling_congr s k :
  int_wrap (int_wrap (s * 2) * 2 ^ Z.of_nat k)
  = int_wrap (s * 2 ^ Z.of_nat (S k)).
Proof.
  apply int_wrap_congr.
  rewrite Zmult_mod, int_wrap_mod, <- Zmult_mod. f_equal.
  rewrite Nat2Z.inj_succ, Z.pow_succ_r by lia. ring.
Qed.

(** After [k] negative reports in a row the capacity is the starting one
    times [2 ^ k], as an [int]. *)
Lemma loop_doubling fuel :
  forall b blk s w w' evs,
    live libc vargs args b blk s w ->
    world_of (loop libc fuel fmt vargs (Addr b) s w) = Some w' ->
    trace w' = trace w ++ evs ->
    forall k size n,
      attempts evs !! k = Some (size, n) ->
      (forall j sj nj,
          (j < k)%nat -> attempts evs !! j = Some (sj, nj) -> nj < 0) ->
      size = int_wrap (s * 2 ^ Z.of_nat k).
Proof.
  induction fuel as [|fuel IH]; intros b blk s w w' evs Hl Hw Htr k size n Hk Hneg.
  { injection Hw as <-.
    rewrite <- (app_nil_r (trace w)) in Htr at 1.
    apply app_inv_head in Htr. subst evs. discriminate. }
  destruct (loop_S libc fmt vargs args fuel b blk s w Hl)
    as (r & w1 & Hp & Heq).
  rewrite Heq in Hw. clear Heq.
  destruct (pass_trace _ _ _ _ _ _ _ _ _ _ Hp) as (evs1 & Htr1 & Hat1 & _).
  assert (Hfirst : forall evs2, evs = evs1 ++ evs2 ->
            k = 0%nat -> size = int_wrap (s * 2 ^ Z.of_nat k)).
  { intros evs2 -> ->. rewrite attempts_app, Hat1 in Hk.
    injection Hk as <- _. symmetry.
    rewrite Z.pow_0_r, Z.mul_1_r. apply int_wrap_id, (live_int _ _ _ _ _ _ _ Hl). }
  assert (Hlast : evs = evs1 ++ [] -> size = int_wrap (s * 2 ^ Z.of_nat k)).
  { intros E. destruct k as [|k]; [eapply Hfirst; eauto|].
    subst evs. rewrite app_nil_r, Hat1 in Hk. discriminate. }
  inversion Hp; subst.
  - injection Hw as <-. apply Hlast.
    eapply trace_split; eauto. rewrite app_nil_r. reflexivity.
  - injection Hw as <-. apply Hlast.
    eapply trace_split; eauto. rewrite app_nil_r. reflexivity.
  - destruct (pass_grown_live libc fmt vargs args b blk s w _ _ _ Hl Hp)
      as (blk2 & Hl2 & _).
    destruct (loop_trace fuel _ _ _ _ _ Hl2 Hw) as [evs2 Htr2].
    pose proof (trace_split _ _ _ _ _ _ Htr Htr1 Htr2) as E.
    destruct k as [|k]; [eapply Hfirst; eauto|].
    subst evs. rewrite attempts_app, Hat1 in Hk, Hneg.
    cbn [app lookup list_lookup] in Hk.
    assert (Hn0 : report libc s fmt args < 0)
      by (eapply (Hneg 0%nat); [lia|reflexivity]).
    rewrite <- doubling_congr.
    replace (int_wrap (s * 2)) with (next_size s (report libc s fmt args)).
    2:{ unfold next_size. destruct (Z.ltb_spec (-1) (report libc s fmt args));
          [lia|reflexivity]. }
    eapply (IH _ _ _ _ _ _ Hl2 Hw Htr2 k size n Hk).
    intros j sj nj Hj Hat. eapply (Hneg (S j)); [lia|exact Hat].
Qed.

End Attempts.

(** ** The heap over a whole run *)

Section Heap.

Variable libc : Libc.
Variables (fmt : string) (vargs : positive) (args : list arg).

(** A run that returns leaves the heap as it was but for the buffer: the
    buffer is gone when the result is null, and is the one block in
    exchange for the old buffer otherwise.  The result is null exactly
    when a request was refused, and then the last two calls are the
    refused [realloc] and the [free] of the block it was asked to grow.
    A run that has not returned yet has met no refusal. *)
Lemma loop_heap fuel :
  forall b blk size w,
    live libc vargs args b blk size w ->
    match loop libc fuel fmt vargs (Addr b) size w with
    | Ok NULL w' =>
        exists evs,
          trace w' = trace w ++ evs
          /\ heap w' = delete b (heap w)
          /\ existsb refusal evs = true
          /\ exists b0 size0 evs0,
               evs = evs0 ++ [EvRealloc b0 size0 NULL; EvFree b0]
    | Ok (Addr b') w' =>
        exists evs,
          trace w' = trace w ++ evs
          /\ delete b' (heap w') = delete b (heap w)
          /\ existsb refusal evs = false
    | Spin w' =>
        exists evs, trace w' = trace w ++ evs /\ existsb refusal evs = false
    | Fault => False
    end.
Proof.
  induction fuel as [|fuel IH]; intros b blk size w Hl.
  { exists []. rewrite app_nil_r. split; reflexivity. }
  destruct (loop_S libc fmt vargs args fuel b blk size w Hl)
    as (r1 & w1 & Hp & ->).
  destruct (pass_trace _ _ _ _ _ _ _ _ _ _ Hp) as (evs1 & Htr1 & _ & _ & Hre).
  destruct r1 as [p| |p s1].
  - inversion Hp; subst.
    exists evs1. split; [exact Htr1|].
    split; [|exact Hre]. cbn [heap attempted]. apply delete_insert_eq.
  - inversion Hp; subst.
    exists evs1. split; [exact Htr1|].
    split; [reflexivity|]. split; [exact Hre|].
    cbn [trace attempted] in Htr1. rewrite <- app_assoc in Htr1.
    apply app_inv_head in Htr1. subst evs1.
    eexists _, _, [_; _; _]. reflexivity.
  - assert (Hb' : exists b', p = Addr b') by (inversion Hp; eauto).
    destruct Hb' as [b' ->].
    destruct (pass_grown_live libc fmt vargs args b blk size w _ _ _ Hl Hp)
      as (blk2 & Hl2 & _ & Hh & Hnew & _).
    specialize (IH _ _ _ _ Hl2).
    assert (Hcat : forall (u : world) evs2,
              trace u = trace w1 ++ evs2 -> trace u = trace w ++ evs1 ++ evs2).
    { intros u evs2 ->. rewrite Htr1, app_assoc. reflexivity. }
    destruct (loop libc fuel fmt vargs (Addr b') s1 w1) as [[|b2] w'| |w'];
      [| | contradiction |].
    + destruct IH as (evs2 & Htr2 & Hh2 & Hx & b0 & size0 & evs0 & ->).
      exists (evs1 ++ evs0 ++ [EvRealloc b0 size0 NULL; EvFree b0]).
      split; [apply Hcat, Htr2|].
      rewrite Hh, (delete_insert_id _ _ _ Hnew) in Hh2.
      split; [exact Hh2|].
      rewrite existsb_app, Hre, Hx. split; [reflexivity|].
      exists b0, size0, (evs1 ++ evs0). rewrite app_assoc. reflexivity.
    + destruct IH as (evs2 & Htr2 & Hh2 & Hx).
      exists (evs1 ++ evs2). split; [apply Hcat, Htr2|].
      rewrite Hh, (delete_insert_id _ _ _ Hnew) in Hh2.
      split; [exact Hh2|]. rewrite existsb_app, Hre, Hx. reflexivity.
    + destruct IH as (evs2 & Htr2 & Hx).
      exists (evs1 ++ evs2). split; [apply Hcat, Htr2|].
      rewrite existsb_app, Hre, Hx. reflexivity.
Qed.

End Heap.

(** ** The allocator's verdicts over a whole run *)

Lemma denied_never libc k evs :
  (forall j sz, alloc_policy libc j sz <> Refuse) ->
  denied libc k evs = false.
Proof.
  intros Hgrant. revert k.
  assert (Hr : forall j size, refuses libc j size = false).
  { intros j size. unfold refuses.
    destruct (alloc_policy libc j _) eqn:E; [|reflexivity].
    destruct (Hgrant _ _ E). }
  induction evs as [|e evs IH]; intros k; [reflexivity|].
  destruct e; cbn [denied]; rewrite ?Hr, ?IH; reflexivity.
Qed.

Lemma pass_denied libc fmt vargs args b blk size w r w1 :
  pass_from libc fmt vargs args b blk size w r w1 ->
  exists evs,
    trace w1 = trace w ++ evs
    /\ forall evs2,
         denied libc (clock w) (evs ++ evs2)
         = match r with
           | Break _ => denied libc (clock w) evs2
           | ReturnNull => true
           | Continue _ _ => denied libc (clock w1) evs2
           end.
Proof.
  intros Hp. inversion Hp; subst; cbn [trace attempted clock].
  - eexists. split; [reflexivity|]. intros evs2. reflexivity.
  - eexists. rewrite <- app_assoc. split; [reflexivity|]. intros evs2.
    cbn [app denied]. unfold refuses.
    match goal with H : alloc_policy _ _ _ = Refuse |- _ => rewrite H end.
    reflexivity.
  - eexists. rewrite <- app_assoc. split; [reflexivity|]. intros evs2.
    cbn [app denied]. unfold refuses.
    match goal with H : alloc_policy _ _ _ = Grant _ |- _ => rewrite H end.
    reflexivity.
Qed.

Section Verdicts.

Variable libc : Libc.
Variables (fmt : string) (vargs : positive) (args : list arg).

(** The loop returns null exactly when the allocator refused one of the
    requests it made, and while it has not returned none was refused. *)
Lemma loop_denied fuel :
  forall b blk size w,
    live libc vargs args b blk size w ->
    match loop libc fuel fmt vargs (Addr b) size w with
    | Ok r w' =>
        exists evs,
          trace w' = trace w ++ evs
          /\ denied libc (clock w) evs
             = match r with NULL => true | Addr _ => false end
    | Spin w' =>
        exists evs,
          trace w' = trace w ++ evs /\ denied libc (clock w) evs = false
    | Fault => False
    end.
Proof.
  induction fuel as [|fuel IH]; intros b blk size w Hl.
  { exists []. rewrite app_nil_r. split; reflexivity. }
  destruct (loop_S libc fmt vargs args fuel b blk size w Hl)
    as (r1 & w1 & Hp & ->).
  destruct (pass_denied _ _ _ _ _ _ _ _ _ _ Hp) as (evs1 & Htr1 & Hd1).
  destruct r1 as [p| |p s1].
  - assert (Hb' : exists b', p = Addr b') by (inversion Hp; eauto).
    destruct Hb' as [b' ->].
    exists evs1. split; [exact Htr1|].
    rewrite <- (app_nil_r evs1). apply Hd1.
  - exists evs1. split; [exact Htr1|].
    rewrite <- (app_nil_r evs1). apply Hd1.
  - assert (Hb' : exists b', p = Addr b') by (inversion Hp; eauto).
    destruct Hb' as [b' ->].
    destruct (pass_grown_live libc fmt vargs args b blk size w _ _ _ Hl Hp)
      as (blk2 & Hl2 & _).
    specialize (IH _ _ _ _ Hl2).
    destruct (loop libc fuel fmt vargs (Addr b') s1 w1) as [r w'| |w'];
      [|contradiction|].
    + destruct IH as (evs2 & Htr2 & Hd2).
      exists (evs1 ++ evs2). split.
      { rewrite Htr2, Htr1, app_assoc. reflexivity. }
      rewrite Hd1. exact Hd2.
    + destruct IH as (evs2 & Htr2 & Hd2).
      exists (evs1 ++ evs2). split.
      { rewrite Htr2, Htr1, app_assoc. reflexivity. }
      rewrite Hd1. exact Hd2.
Qed.

End Verdicts.

(** A call returns null exactly when the allocator refused one of the
    requests the call made. *)
Lemma log_to_string_denied libc fuel fmt vargs args w w' evs :
  va_lists w !! vargs = Some args ->
  world_of (log_to_string libc fuel fmt vargs w) = Some w' ->
  trace w' = trace w ++ evs ->
  log_to_string libc fuel fmt vargs w = Ok NULL w'
  <-> denied libc (clock w) evs = true.
Proof.
  intros Hva Hw Htr. rewrite log_to_string_unfold in *.
  destruct (alloc_policy libc (clock w) 256) eqn:Hpol.
  { injection Hw as <-. cbn [trace] in Htr.
    apply app_inv_head in Htr. subst evs.
    cbn [denied]. unfold refuses.
    rewrite (to_size_t_id (model libc) 256), Hpol by (unfold INT_MAX; lia).
    split; reflexivity. }
  cbv zeta in *.
  pose proof (malloc_live libc vargs args w Hva) as Hl. cbv zeta in Hl.
  pose proof (loop_denied libc fmt vargs args fuel _ _ _ _ Hl) as H.
  cbn [trace clock] in H.
  assert (Hevs : forall evs2,
            trace w' = (trace w ++ [EvMalloc 256 (Addr (fresh (dom (heap w))))])
                         ++ evs2 ->
            denied libc (clock w) evs = denied libc (S (clock w)) evs2).
  { intros evs2 E. rewrite <- app_assoc, Htr in E.
    apply app_inv_head in E. subst evs. cbn [app denied]. unfold refuses.
    rewrite (to_size_t_id (model libc) 256), Hpol by (unfold INT_MAX; lia).
    reflexivity. }
  destruct (loop libc fuel fmt vargs _ 256 _) as [r u| |u];
    [|contradiction|]; injection Hw as ->.
  - destruct H as (evs2 & Htr2 & Hd). rewrite (Hevs _ Htr2), Hd.
    destruct r; split; try reflexivity; discriminate.
  - destruct H as (evs2 & Htr2 & Hd). rewrite (Hevs _ Htr2), Hd.
    split; discriminate.
Qed.

(** ** Termination *)

Lemma loop_fuel_mono libc fmt vargs fuel :
  forall fuel' p size w r w',
    loop libc fuel fmt vargs p size w = Ok r w' ->
    (fuel <= fuel')%nat ->
    loop libc fuel' fmt vargs p size w = Ok r w'.
Proof.
  induction fuel as [|fuel IH]; intros fuel' p size w r w' Hrun Hle.
  { discriminate. }
  destruct fuel' as [|fuel']; [lia|].
  cbn [loop] in *. unfold bind in *.
  destruct (loop_body libc fmt vargs p size w) as [[p1| |p1 s1] w1| |];
    try assumption.
  apply IH; [exact Hrun|lia].
Qed.

(** A capacity that is granted after a report that did not fit is larger
    than the one before: growth that wraps around gives a negative [int],
    which is a request for more than [PTRDIFF_MAX] bytes. *)
Lemma next_size_increases size n :
  INT_MIN <= n <= INT_MAX ->
  0 < size <= INT_MAX ->
  fits n size = false ->
  0 <= next_size size n ->
  size < next_size size n.
Proof.
  intros Hn Hsize Hfit Hpos. apply fits_false in Hfit.
  unfold next_size in *. destruct (Z.ltb_spec (-1) n).
  - destruct (Z.eq_dec n INT_MAX) as [->|Hne].
    + exfalso. revert Hpos. vm_compute. intros Hc. apply Hc. reflexivity.
    + rewrite int_wrap_id by lia. lia.
  - destruct (Z.le_gt_cases (size * 2) INT_MAX).
    + rewrite int_wrap_id by (unfold INT_MIN, INT_MAX in *; lia). lia.
    + rewrite int_wrap_overflow in Hpos by lia.
      unfold INT_MAX in *. lia.
Qed.

Lemma granted_size_nonneg libc k size :
  refuses_oversize libc ->
  INT_MIN <= size <= INT_MAX ->
  alloc_policy libc k (to_size_t (model libc) size) <> Refuse ->
  0 <= size.
Proof.
  intros Hr Hint Hg. destruct (Z.le_gt_cases 0 size) as [|Hneg]; [assumption|].
  exfalso. apply Hg, Hr.
  rewrite to_size_t_negative by lia.
  unfold PTRDIFF_MAX, INT_MIN in *.
  destruct (model libc); cbn [size_bits]; lia.
Qed.

Section Termination.

Variable libc : Libc.
Variables (fmt : string) (vargs : positive) (args : list arg).
Hypothesis oversize : refuses_oversize libc.
Hypothesis ints : int_valued libc.

Lemma loop_terminates fuel :
  forall b blk size w,
    live libc vargs args b blk size w ->
    0 < size ->
    INT_MAX - size < Z.of_nat fuel ->
    exists r w', loop libc fuel fmt vargs (Addr b) size w = Ok r w'.
Proof.
  induction fuel as [|fuel IH]; intros b blk size w Hl Hpos Hfuel.
  { pose proof (live_int _ _ _ _ _ _ _ Hl). lia. }
  destruct (loop_S libc fmt vargs args fuel b blk size w Hl)
    as (r & w1 & Hp & ->).
  destruct r as [p| |p size'].
  - eauto.
  - eauto.
  - assert (Hb' : exists b', p = Addr b') by (inversion Hp; eauto).
    destruct Hb' as [b' ->].
    destruct (pass_grown_live libc fmt vargs args b blk size w _ _ _ Hl Hp)
      as (blk2 & Hl2 & _ & _ & _ & Hsz & Hfit & Hg).
    assert (H0 : 0 <= size').
    { eapply granted_size_nonneg; eauto. exact (live_int _ _ _ _ _ _ _ Hl2). }
    assert (Hinc : size < size').
    { rewrite Hsz. apply next_size_increases.
      - apply ints.
      - pose proof (live_int _ _ _ _ _ _ _ Hl). lia.
      - exact Hfit.
      - rewrite <- Hsz. exact H0. }
    apply (IH _ _ _ _ Hl2); lia.
Qed.

End Termination.

(** ** Runs that never return *)

Section Spinning.

Variable libc : Libc.
Variables (fmt : string) (vargs : positive) (args : list arg).
Variable P : Z -> Prop.
Hypothesis stuck :
  forall size, P size ->
    fits (report libc size fmt args) size = false
    /\ P (next_size size (report libc size fmt args))
    /\ forall k,
         alloc_policy libc k
           (to_size_t (model libc) (next_size size (report libc size fmt args)))
         <> Refuse.

(** From a capacity in a set [P] that no report fits, that growth does not
    leave and whose members the allocator grants, every pass ends in
    another pass. *)
Lemma loop_spins fuel :
  forall b blk size w,
    live libc vargs args b blk size w ->
    P size ->
    exists w' evs,
      loop libc fuel fmt vargs (Addr b) size w = Spin w'
      /\ trace w' = trace w ++ evs
      /\ length (attempts evs) = fuel
      /\ length (growths evs) = fuel.
Proof.
  induction fuel as [|fuel IH]; intros b blk size w Hl HP.
  { exists w, []. rewrite app_nil_r. repeat split. }
  destruct (loop_S libc fmt vargs args fuel b blk size w Hl)
    as (r & w1 & Hp & ->).
  destruct (stuck size HP) as (Hfit & HP' & Hgrant).
  destruct (pass_trace _ _ _ _ _ _ _ _ _ _ Hp) as (evs1 & Htr1 & Hat & Hgr & _).
  inversion Hp; subst;
    [congruence | exfalso; eapply Hgrant; eassumption |].
  destruct (pass_grown_live libc fmt vargs args b blk size w _ _ _ Hl Hp)
    as (blk2 & Hl2 & _).
  destruct (IH _ _ _ _ Hl2 HP') as (w' & evs2 & Hrun & Htr2 & Ha2 & Hg2).
  exists w', (evs1 ++ evs2). split; [exact Hrun|].
  rewrite attempts_app, growths_app, !length_app, Hat, Hgr, Ha2, Hg2.
  repeat split. rewrite Htr2, Htr1, app_assoc. reflexivity.
Qed.

End Spinning.

(** ** Two runs side by side *)

Lemma block_eq (x y : block) :
  blk_size x = blk_size y -> blk_bytes x = blk_bytes y -> x = y.
Proof. destruct x, y. cbn. intros -> ->. reflexivity. Qed.

Section TwoRuns.

Variables libc1 libc2 : Libc.
Variables (fmt : string) (args : list arg) (vargs1 vargs2 : positive).
Hypothesis same_model : model libc1 = model libc2.
Hypothesis same_render : render libc1 = render libc2.

Lemma same_report size :
  report libc1 size fmt args = report libc2 size fmt args.
Proof. unfold report. rewrite same_model, same_render. reflexivity. Qed.

Lemma same_stored size :
  stored libc1 size fmt args = stored libc2 size fmt args.
Proof. unfold stored. rewrite same_model, same_render. reflexivity. Qed.

(** Two runs of the loop that start with equal capacities and equal
    buffer contents and both return a buffer have made the same attempts
    and the same requests, and return equal blocks, whatever the heaps,
    the addresses and the allocators are. *)
Lemma loop_deterministic fuel1 :
  forall fuel2 b1 b2 blk size w1 w2 p1 p2 w1' w2',
    live libc1 vargs1 args b1 blk size w1 ->
    live libc2 vargs2 args b2 blk size w2 ->
    loop libc1 fuel1 fmt vargs1 (Addr b1) size w1 = Ok (Addr p1) w1' ->
    loop libc2 fuel2 fmt vargs2 (Addr b2) size w2 = Ok (Addr p2) w2' ->
    exists evs1 evs2 blk',
      trace w1' = trace w1 ++ evs1
      /\ trace w2' = trace w2 ++ evs2
      /\ attempts evs1 = attempts evs2
      /\ growths evs1 = growths evs2
      /\ heap w1' !! p1 = Some blk'
      /\ heap w2' !! p2 = Some blk'.
Proof.
  induction fuel1 as [|fuel1 IH];
    intros fuel2 b1 b2 blk size w1 w2 p1 p2 w1' w2' Hl1 Hl2 Hrun1 Hrun2.
  { discriminate. }
  destruct fuel2 as [|fuel2]; [discriminate|].
  destruct (loop_S libc1 fmt vargs1 args fuel1 b1 blk size w1 Hl1)
    as (r1 & u1 & Hp1 & Heq1).
  destruct (loop_S libc2 fmt vargs2 args fuel2 b2 blk size w2 Hl2)
    as (r2 & u2 & Hp2 & Heq2).
  rewrite Heq1 in Hrun1. rewrite Heq2 in Hrun2. clear Heq1 Heq2.
  destruct (pass_trace _ _ _ _ _ _ _ _ _ _ Hp1) as (e1 & Ht1 & Ha1 & Hg1 & _).
  destruct (pass_trace _ _ _ _ _ _ _ _ _ _ Hp2) as (e2 & Ht2 & Ha2 & Hg2 & _).
  rewrite <- same_report in Ha2, Hg2.
  assert (Hfits : forall r u b w v l,
            pass_from l fmt v args b blk size w r u ->
            fits (report l size fmt args) size
            = match r with Break _ => true | _ => false end)
    by (intros r u b w v l Hp; inversion Hp; subst; assumption).
  pose proof (Hfits _ _ _ _ _ _ Hp1) as Hf1.
  pose proof (Hfits _ _ _ _ _ _ Hp2) as Hf2.
  rewrite <- same_report in Hf2.
  destruct r1 as [q1| |q1 s1]; destruct r2 as [q2| |q2 s2];
    try congruence.
  - injection Hrun1 as -> ->. injection Hrun2 as -> ->.
    inversion Hp1; subst. inversion Hp2; subst.
    eexists e1, e2, _. rewrite Ha1, Ha2, Hg1, Hg2.
    repeat split; try assumption; cbn [heap attempted].
    + apply lookup_insert_eq.
    + rewrite same_stored. apply lookup_insert_eq.
  - assert (Hq1 : exists c1, q1 = Addr c1) by (inversion Hp1; eauto).
    assert (Hq2 : exists c2, q2 = Addr c2) by (inversion Hp2; eauto).
    destruct Hq1 as [c1 ->]. destruct Hq2 as [c2 ->].
    destruct (pass_grown_live libc1 fmt vargs1 args _ _ _ _ _ _ _ Hl1 Hp1)
      as (k1 & Hk1 & Hb1 & _ & _ & Hs1 & _).
    destruct (pass_grown_live libc2 fmt vargs2 args _ _ _ _ _ _ _ Hl2 Hp2)
      as (k2 & Hk2 & Hb2 & _ & _ & Hs2 & _).
    rewrite <- same_report in Hs2. rewrite <- same_stored in Hb2.
    subst s1 s2.
    assert (k2 = k1).
    { apply block_eq.
      - rewrite (live_size _ _ _ _ _ _ _ Hk1), (live_size _ _ _ _ _ _ _ Hk2).
        rewrite same_model. reflexivity.
      - rewrite Hb1, Hb2, same_model. reflexivity. }
    subst k2.
    destruct (IH _ _ _ _ _ _ _ _ _ _ _ Hk1 Hk2 Hrun1 Hrun2)
      as (f1 & f2 & blk' & Hu1 & Hu2 & Ha & Hg & Hh1 & Hh2).
    exists (e1 ++ f1), (e2 ++ f2), blk'.
    rewrite !attempts_app, !growths_app, Ha1, Ha2, Hg1, Hg2, Ha, Hg.
    repeat split; try assumption.
    + rewrite Hu1, Ht1, app_assoc. reflexivity.
    + rewrite Hu2, Ht2, app_assoc. reflexivity.
Qed.

End TwoRuns.

(** ** The concrete libraries meet their contracts *)

Lemma c99_render_conforming m policy :
  conforming (Build_Libc m c99_render policy) c99_text.
Proof.
  intros bound fmt args. cbn [render]. unfold c99_render, c99_text.
  destruct (expand fmt args) as [[t rest]|]; [|lia].
  destruct (Z.leb_spec (Z.of_nat (length (list_byte_of_string t))) INT_MAX);
    [|lia].
  intros Hn. split; [reflexivity|].
  unfold truncated. destruct (Z.ltb_spec 0 bound); [|lia].
  rewrite takeZ_all by lia. reflexivity.
Qed.

Lemma legacy_render_conforming m policy :
  conforming (Build_Libc m legacy_render policy) c99_text.
Proof.
  intros bound fmt args. cbn [render]. unfold legacy_render, c99_text.
  destruct (expand fmt args) as [[t rest]|]; [|lia].
  destruct (Z.ltb_spec (Z.of_nat (length (list_byte_of_string t))) bound);
    [|lia].
  intros Hn. split; [reflexivity|].
  unfold truncated. destruct (Z.ltb_spec 0 bound); [|lia].
  rewrite takeZ_all by lia. reflexivity.
Qed.

Lemma bounded_policy_refuses_oversize m render :
  refuses_oversize (Build_Libc m render (bounded_policy m)).
Proof.
  intros k sz H. cbn [alloc_policy model] in *. unfold bounded_policy.
  destruct (Z.leb_spec sz (PTRDIFF_MAX m)); [lia|reflexivity].
Qed.

Lemma c_string_terminated (text junk : list byte) :
  c_string (text ++ x00 :: junk) = c_string (text ++ [x00]).
Proof.
  induction text as [|x text IH]; cbn [c_string app]; [reflexivity|].
  rewrite IH. reflexivity.
Qed.

(** ** The scenarios of the specification *)

Example scenario_1 :
  match log_to_string glibc 8 "%s" 1 (world0 [ArgStr "hi"]) with
  | Ok (Addr b) w =>
      (blk_bytes <$> heap w !! b, blk_size <$> heap w !! b, attempts (trace w))
  | _ => (None, None, [])
  end = (Some (list_byte_of_string "hi" ++ [x00]), Some 256, [(256, 2)]).
Proof. vm_compute. reflexivity. Qed.

Example scenario_2 :
  match log_to_string glibc 8 "%d-%d" 1 (world0 [ArgInt 1; ArgInt 2]) with
  | Ok (Addr b) w => c_string <$> (blk_bytes <$> heap w !! b)
  | _ => None
  end = Some (Some (list_byte_of_string "1-2")).
Proof. vm_compute. reflexivity. Qed.

Example scenario_4 :
  match log_to_string glibc 8 EmptyString 1 (world0 []) with
  | Ok (Addr b) w => c_string <$> (blk_bytes <$> heap w !! b)
  | _ => None
  end = Some (Some []).
Proof. vm_compute. reflexivity. Qed.

Example scenario_3 :
  let o := log_to_string glibc 8 "%s" 1 (world0 [ArgStr (stars 300)]) in
  returned o = Addr 3
  /\ attempts (trace (reached o)) = [(256, 300); (301, 300)]
  /\ growths (trace (reached o)) = [301]
  /\ blk_size <$> heap (reached o) !! 3%positive = Some 301
  /\ c_string <$> (blk_bytes <$> heap (reached o) !! 3%positive)
     = Some (Some (list_byte_of_string (stars 300))).
Proof. vm_compute. repeat split. Qed.

Example scenario_5 :
  let w := world0 [ArgStr "hi"] in
  heap <$> world_of ((buffer <- log_to_string glibc 8 "%s" 1 ;;
                      log_to_string_free buffer) w)
  = Some (heap w).
Proof. vm_compute. reflexivity. Qed.

(** The same text through a formatter that reports [-1] on truncation: one
    doubling, to 512 bytes. *)
Example glibc_2_0_run :
  let o := log_to_string glibc_2_0 8 "%s" 1 (world0 [ArgStr (stars 300)]) in
  attempts (trace (reached o)) = [(256, -1); (512, 300)]
  /\ growths (trace (reached o)) = [512]
  /\ c_string <$> (blk_bytes <$> heap (reached o) !! 3%positive)
     = Some (Some (list_byte_of_string (stars 300))).
Proof. vm_compute. repeat split. Qed.

(** The first call of a run is [malloc(256)], and the rest of the run keeps
    to the contract of the library and to copies of the argument list. *)
Lemma log_to_string_run libc fuel fmt vargs args w :
  va_lists w !! vargs = Some args ->
  exists w' r evs,
    world_of (log_to_string libc fuel fmt vargs w) = Some w'
    /\ trace w' = trace w ++ EvMalloc 256 r :: evs
    /\ fresh_handles vargs evs = true
    /\ va_lists w' = va_lists w.
Proof.
  intros Hva. rewrite log_to_string_unfold.
  destruct (alloc_policy libc (clock w) 256).
  { eexists _, _, []. split; [reflexivity|]. cbn [trace va_lists].
    repeat split. }
  cbv zeta.
  pose proof (malloc_live libc vargs args w Hva) as Hl. cbv zeta in Hl.
  destruct (loop_handles libc fmt vargs args fuel _ _ _ _ Hl)
    as (w' & evs & Hw & Htr & Hv & Hfh).
  exists w', (Addr (fresh (dom (heap w)))), evs.
  split; [exact Hw|]. cbn [trace va_lists] in *.
  repeat split.
  - rewrite Htr, <- app_assoc. reflexivity.
  - exact Hfh.
  - exact Hv.
Qed.

(** * The claims *)

(** C1: a buffer that [log_to_string] returns holds the complete formatted
    text followed by its terminator, never a truncated prefix: the text and
    the [NUL] are the first bytes of the block, so the buffer read as a C
    string is the text read as one, and the capacity of the block is at
    least the length of the text plus one. *)
Theorem log_to_string_complete libc text fuel fmt vargs args w b w' :
  conforming libc text ->
  va_lists w !! vargs = Some args ->
  log_to_string libc fuel fmt vargs w = Ok (Addr b) w' ->
  exists blk,
    heap w' !! b = Some blk
    /\ (text fmt args ++ [x00]) `prefix_of` blk_bytes blk
    /\ c_string (blk_bytes blk) = c_string (text fmt args ++ [x00])
    /\ Z.of_nat (length (text fmt args)) + 1 <= blk_size blk.
Proof.
  intros Hc Hva Hrun.
  rewrite log_to_string_unfold in Hrun.
  destruct (alloc_policy libc (clock w) 256); [discriminate|].
  cbv zeta in Hrun.
  pose proof (malloc_live libc vargs args w Hva) as Hl. cbv zeta in Hl.
  destruct (loop_complete libc fmt vargs args text fuel Hc _ _ _ _ _ _ Hl Hrun)
    as (blk & Hb & Hpre & Hcap).
  exists blk. repeat split; try assumption.
  destruct Hpre as [junk ->]. rewrite <- app_assoc. apply c_string_terminated.
Qed.

Lemma log_to_string_complete_witness :
  let args := [ArgInt 7; ArgStr (stars 300)] in
  let o := log_to_string glibc 8 "%d:%s" 1 (world0 args) in
  exists blk,
    heap (reached o) !! 3%positive = Some blk
    /\ (c99_text "%d:%s" args ++ [x00]) `prefix_of` blk_bytes blk
    /\ c_string (blk_bytes blk) = c_string (c99_text "%d:%s" args ++ [x00])
    /\ Z.of_nat (length (c99_text "%d:%s" args)) + 1 <= blk_size blk.
Proof.
  intros args o.
  apply (log_to_string_complete glibc c99_text 8 "%d:%s" 1 args (world0 args)
           3 (reached o)).
  - apply c99_render_conforming.
  - reflexivity.
  - vm_compute. reflexivity.
Defined.

(** C2: [log_to_string] starts with a capacity of 256 bytes: the first call
    of every run is [malloc(256)], and its result is null exactly when the
    allocator refuses that request.  When the formatter, given that
    capacity, reports a length from 0 to 255 and [malloc] is granted, the
    run ends after one rendering attempt, no [realloc] and no [free]: it
    returns the block that [malloc] gave, a new one, whose capacity is
    still 256 and whose content is the formatted text and its terminator.
    (When [malloc] is refused the run returns null, having attempted
    nothing.) *)
Theorem log_to_string_first_attempt libc text fuel fmt vargs args w :
  va_lists w !! vargs = Some args ->
  (exists w' r evs,
     world_of (log_to_string libc fuel fmt vargs w) = Some w'
     /\ trace w' = trace w ++ EvMalloc 256 r :: evs
     /\ (r = NULL <-> alloc_policy libc (clock w) 256 = Refuse))
  /\ (conforming libc text ->
      0 <= report libc 256 fmt args < 256 ->
      (1 <= fuel)%nat ->
      match alloc_policy libc (clock w) 256 with
      | Grant _ =>
          exists b w' evs,
            log_to_string libc fuel fmt vargs w = Ok (Addr b) w'
            /\ heap w !! b = None
            /\ trace w' = trace w ++ EvMalloc 256 (Addr b) :: evs
            /\ attempts evs = [(256, report libc 256 fmt args)]
            /\ growths evs = []
            /\ frees evs = []
            /\ heap w' !! b = Some (Block 256 (text fmt args ++ [x00]))
      | Refuse =>
          exists w',
            log_to_string libc fuel fmt vargs w = Ok NULL w'
            /\ trace w' = trace w ++ [EvMalloc 256 NULL]
            /\ heap w' = heap w
      end).
Proof.
  intros Hva. split.
  { rewrite log_to_string_unfold.
    destruct (alloc_policy libc (clock w) 256).
    { eexists _, NULL, []. split; [reflexivity|]. split; [reflexivity|].
      split; reflexivity. }
    cbv zeta.
    pose proof (malloc_live libc vargs args w Hva) as Hl. cbv zeta in Hl.
    destruct (loop_handles libc fmt vargs args fuel _ _ _ _ Hl)
      as (w' & evs & Hw & Htr & _).
    exists w', (Addr (fresh (dom (heap w)))), evs.
    split; [exact Hw|]. cbn [trace] in Htr. split.
    { rewrite Htr, <- app_assoc. reflexivity. }
    split; discriminate. }
  intros Hc Hn Hfuel. destruct fuel as [|fuel]; [lia|].
  rewrite log_to_string_unfold.
  destruct (alloc_policy libc (clock w) 256).
  { eexists. split; [reflexivity|]. split; reflexivity. }
  cbv zeta.
  pose proof (malloc_live libc vargs args w Hva) as Hl. cbv zeta in Hl.
  destruct (loop_S libc fmt vargs args fuel _ _ _ _ Hl) as (r & w1 & Hp & ->).
  assert (Hfit : fits (report libc 256 fmt args) 256 = true)
    by (apply fits_true; exact Hn).
  inversion Hp; subst; try congruence.
  eexists _, _, _. split; [reflexivity|].
  split; [apply fresh_lookup|].
  cbn [trace attempted heap]. split.
  { rewrite <- app_assoc. reflexivity. }
  cbn [attempts growths frees]. repeat split.
  rewrite lookup_insert_eq. cbn [blk_size blk_bytes].
  destruct (fitting_attempt libc fmt args text 256 Hc
              (live_int _ _ _ _ _ _ _ Hl) Hfit) as [_ ->].
  rewrite overwrite_nil. reflexivity.
Qed.

Lemma log_to_string_first_attempt_witness :
  let w := world0 [ArgStr "hi"] in
  (exists w' r evs,
     world_of (log_to_string glibc 1 "%s" 1 w) = Some w'
     /\ trace w' = trace w ++ EvMalloc 256 r :: evs
     /\ (r = NULL <-> alloc_policy glibc (clock w) 256 = Refuse))
  /\ exists b w' evs,
       log_to_string glibc 1 "%s" 1 w = Ok (Addr b) w'
       /\ heap w !! b = None
       /\ trace w' = trace w ++ EvMalloc 256 (Addr b) :: evs
       /\ attempts evs = [(256, report glibc 256 "%s" [ArgStr "hi"])]
       /\ growths evs = []
       /\ frees evs = []
       /\ heap w' !! b
          = Some (Block 256 (c99_text "%s" [ArgStr "hi"] ++ [x00])).
Proof.
  intros w.
  destruct (log_to_string_first_attempt glibc c99_text 1 "%s" 1
              [ArgStr "hi"] w eq_refl) as [H1 H2].
  split; [exact H1|].
  apply H2.
  - apply c99_render_conforming.
  - vm_compute. split; [discriminate|reflexivity].
  - lia.
Defined.

(** C3: at a report of [INT_MAX], which is at least the capacity, line 23
    does not make the next capacity [n + 1].  The sum [n + 1] is computed in
    [int], where it is [INT_MIN]; on a 64-bit system [realloc] is asked for
    that value converted to [size_t], [2 ^ 64 - 2 ^ 31] bytes, and refuses,
    so that the buffer is freed and the function returns null, although the
    allocator grants a request for [n + 1] bytes. *)
Theorem loop_body_report_int_max :
  let args := [ArgInt INT_MAX; ArgStr EmptyString] in
  let w := world1 args in
  report pad_libc 256 "%*s" args = INT_MAX
  /\ fits INT_MAX 256 = false
  /\ next_size 256 INT_MAX = INT_MIN
  /\ to_size_t LP64 INT_MIN = 2 ^ 64 - 2 ^ 31
  /\ alloc_policy pad_libc (clock w) (to_size_t LP64 INT_MIN) = Refuse
  /\ alloc_policy pad_libc (clock w) (INT_MAX + 1) = Grant true
  /\ exists w',
       loop_body pad_libc "%*s" 1 (Addr 2) 256 w = Ok ReturnNull w'
       /\ attempts (trace w') = [(256, INT_MAX)]
       /\ growths (trace w') = [INT_MIN]
       /\ frees (trace w') = [2%positive]
       /\ heap w' !! 2%positive = None.
Proof.
  intros args w. do 6 (split; [reflexivity|]).
  eexists. split; [vm_compute; reflexivity|]. repeat split.
Qed.

(** C4: in a pass whose rendering attempt reports a negative length, the
    one [realloc] asks for twice the current capacity, computed in [int],
    that is modulo [2 ^ 32], and when it is granted the next pass runs with
    that capacity.  Hence, in any run of [log_to_string], an attempt that
    follows [k] negative reports in a row from the start of the call is
    made with capacity [256 * 2 ^ k] modulo [2 ^ 32]. *)
Theorem log_to_string_doubling libc fmt vargs args :
  (forall b blk size w,
      live libc vargs args b blk size w ->
      report libc size fmt args < 0 ->
      exists r w' evs,
        loop_body libc fmt vargs (Addr b) size w = Ok r w'
        /\ trace w' = trace w ++ evs
        /\ growths evs = [int_wrap (size * 2)]
        /\ int_wrap (size * 2) mod 2 ^ 32 = (size * 2) mod 2 ^ 32
        /\ match r with
           | Continue (Addr b') size' =>
               size' = int_wrap (size * 2)
               /\ exists blk', live libc vargs args b' blk' size' w'
           | ReturnNull =>
               alloc_policy libc (clock w)
                 (to_size_t (model libc) (int_wrap (size * 2)))
               = Refuse
           | _ => False
           end)
  /\ (forall fuel w w' evs k size n,
         va_lists w !! vargs = Some args ->
         world_of (log_to_string libc fuel fmt vargs w) = Some w' ->
         trace w' = trace w ++ evs ->
         attempts evs !! k = Some (size, n) ->
         (forall j sj nj,
             (j < k)%nat -> attempts evs !! j = Some (sj, nj) -> nj < 0) ->
         size = int_wrap (256 * 2 ^ Z.of_nat k)
         /\ size mod 2 ^ 32 = (256 * 2 ^ Z.of_nat k) mod 2 ^ 32).
Proof.
  split.
  - intros b blk size w Hl Hn.
    destruct (loop_body_cases libc fmt vargs args b blk size w Hl)
      as (r & w' & Hrun & Hp).
    destruct (pass_trace _ _ _ _ _ _ _ _ _ _ Hp) as (evs & Htr & _ & Hg & _).
    assert (Hnext : next_size size (report libc size fmt args)
                    = int_wrap (size * 2)).
    { unfold next_size.
      destruct (Z.ltb_spec (-1) (report libc size fmt args)); [lia|reflexivity]. }
    assert (Hnofit : fits (report libc size fmt args) size <> true)
      by (rewrite fits_true; lia).
    exists r, w', evs. split; [exact Hrun|]. split; [exact Htr|].
    inversion Hp; subst; try contradiction; rewrite Hnext in *.
    + repeat split; try assumption. apply int_wrap_mod.
    + repeat split; try assumption; [apply int_wrap_mod|].
      destruct (pass_grown_live libc fmt vargs args b blk size w _ _ _ Hl Hp)
        as (blk2 & Hl2 & _).
      eauto.
  - intros fuel w w' evs k size n Hva Hw Htr Hk Hneg.
    assert (E : size = int_wrap (256 * 2 ^ Z.of_nat k)).
    2:{ split; [exact E|]. rewrite E. apply int_wrap_mod. }
    rewrite log_to_string_unfold in Hw.
    destruct (alloc_policy libc (clock w) 256).
    { injection Hw as <-. cbn [trace] in Htr.
      apply app_inv_head in Htr. subst evs. discriminate. }
    cbv zeta in Hw.
    pose proof (malloc_live libc vargs args w Hva) as Hl. cbv zeta in Hl.
    destruct (loop_trace libc fmt vargs args fuel _ _ _ _ _ Hl Hw) as [evs2 Htr2].
    cbn [trace] in Htr2. rewrite <- app_assoc in Htr2.
    rewrite Htr in Htr2. apply app_inv_head in Htr2. subst evs.
    cbn [app attempts] in Hk, Hneg.
    refine (loop_doubling libc fmt vargs args fuel _ _ _ _ _ evs2 Hl Hw _
              k size n Hk Hneg).
    rewrite Htr. cbn [trace]. rewrite <- app_assoc. reflexivity.
Qed.

Lemma log_to_string_doubling_witness :
  let w := world0 [] in
  let w' := reached (log_to_string unchecked_broken_libc 30 "%q" 1 w) in
  (exists r w1 evs,
      loop_body unchecked_broken_libc "%q" 1 (Addr 2) 256 (world1 []) = Ok r w1
      /\ trace w1 = trace (world1 []) ++ evs
      /\ growths evs = [int_wrap (256 * 2)]
      /\ int_wrap (256 * 2) mod 2 ^ 32 = (256 * 2) mod 2 ^ 32
      /\ match r with
         | Continue (Addr b') size' =>
             size' = int_wrap (256 * 2)
             /\ exists blk', live unchecked_broken_libc 1 [] b' blk' size' w1
         | ReturnNull =>
             alloc_policy unchecked_broken_libc (clock (world1 []))
               (to_size_t (model unchecked_broken_libc) (int_wrap (256 * 2)))
             = Refuse
         | _ => False
         end)
  /\ attempts (trace w') !! 25%nat = Some (0, -1)
  /\ 0 = int_wrap (256 * 2 ^ Z.of_nat 25)
  /\ 0 mod 2 ^ 32 = (256 * 2 ^ Z.of_nat 25) mod 2 ^ 32.
Proof.
  intros w w'.
  destruct (log_to_string_doubling unchecked_broken_libc "%q" 1 []) as [H1 H2].
  split.
  { apply (H1 2%positive (Block 256 []) 256 (world1 [])).
    - constructor; [reflexivity|reflexivity|reflexivity|].
      unfold INT_MIN, INT_MAX. lia.
    - reflexivity. }
  split; [vm_compute; reflexivity|].
  apply (H2 30%nat w w' (trace w') 25%nat 0 (-1)).
  - reflexivity.
  - vm_compute. reflexivity.
  - reflexivity.
  - vm_compute. reflexivity.
  - intros j sj nj Hj.
    do 25 (destruct j as [|j]; [vm_compute; intros [= _ <-]; reflexivity|]).
    lia.
Defined.

(** What the trace and the heap show of a refusal: a run whose trace holds
    a request answered by null has returned null, and a run that returns
    null holds one; the heap then is what it was before the call. *)
Lemma log_to_string_refusal_recorded libc fuel fmt vargs args w w' :
  va_lists w !! vargs = Some args ->
  world_of (log_to_string libc fuel fmt vargs w) = Some w' ->
  exists evs,
    trace w' = trace w ++ evs
    /\ (log_to_string libc fuel fmt vargs w = Ok NULL w'
        <-> existsb refusal evs = true)
    /\ (alloc_policy libc (clock w) 256 = Refuse -> evs = [EvMalloc 256 NULL])
    /\ (log_to_string libc fuel fmt vargs w = Ok NULL w' ->
        heap w' = heap w
        /\ (evs = [EvMalloc 256 NULL]
            \/ exists b size evs0,
                 evs = evs0 ++ [EvRealloc b size NULL; EvFree b]))
    /\ (forall b,
          log_to_string libc fuel fmt vargs w = Ok (Addr b) w' ->
          delete b (heap w') = heap w).
Proof.
  intros Hva Hw. rewrite log_to_string_unfold in *.
  destruct (alloc_policy libc (clock w) 256) eqn:Hpol.
  { injection Hw as <-. exists [EvMalloc 256 NULL]. cbn [trace heap].
    repeat split; auto; discriminate. }
  cbv zeta in *.
  pose proof (malloc_live libc vargs args w Hva) as Hl. cbv zeta in Hl.
  pose proof (loop_heap libc fmt vargs args fuel _ _ _ _ Hl) as H.
  cbn [trace heap] in H.
  rewrite (delete_insert_id _ _ _ (fresh_lookup (heap w))) in H.
  set (b0 := fresh (dom (heap w))) in *.
  destruct (loop libc fuel fmt vargs (Addr b0) 256 _) as [[|b] u| |u];
    [| | contradiction |]; injection Hw as ->.
  - destruct H as (evs & Htr & Hh & Hx & b1 & size1 & evs1 & ->).
    exists (EvMalloc 256 (Addr b0)
              :: evs1 ++ [EvRealloc b1 size1 NULL; EvFree b1]).
    split; [rewrite Htr, <- app_assoc; reflexivity|].
    cbn [existsb refusal orb]. rewrite Hx.
    repeat split; auto; try discriminate.
    right. exists b1, size1, (EvMalloc 256 (Addr b0) :: evs1). reflexivity.
  - destruct H as (evs & Htr & Hh & Hx).
    exists (EvMalloc 256 (Addr b0) :: evs).
    split; [rewrite Htr, <- app_assoc; reflexivity|].
    cbn [existsb refusal orb]. rewrite Hx.
    repeat split; try discriminate. intros b' [= <-]. exact Hh.
  - destruct H as (evs & Htr & Hx).
    exists (EvMalloc 256 (Addr b0) :: evs).
    split; [rewrite Htr, <- app_assoc; reflexivity|].
    cbn [existsb refusal orb]. rewrite Hx.
    repeat split; try discriminate.
Qed.

(** C5: [log_to_string] returns the null pointer exactly when an
    allocation fails: it returns null when the allocator refuses one of the
    requests the call makes, and only then (with an allocator that grants
    every request it never returns null), and the requests that the trace
    records as answered by null are the ones the allocator refused.  When
    [malloc] is refused nothing else is called.  When a [realloc] is
    refused, the last two calls are that [realloc] and the [free] of the
    block it was asked to grow.  In both cases the heap is what it was
    before the call: no block is left behind, none is handed out (and a
    buffer that is returned is the only block added to the heap). *)
Theorem log_to_string_null_iff_refused libc fuel fmt vargs args w w' :
  va_lists w !! vargs = Some args ->
  world_of (log_to_string libc fuel fmt vargs w) = Some w' ->
  exists evs,
    trace w' = trace w ++ evs
    /\ (log_to_string libc fuel fmt vargs w = Ok NULL w'
        <-> denied libc (clock w) evs = true)
    /\ ((forall k sz, alloc_policy libc k sz <> Refuse) ->
        log_to_string libc fuel fmt vargs w <> Ok NULL w')
    /\ existsb refusal evs = denied libc (clock w) evs
    /\ (log_to_string libc fuel fmt vargs w = Ok NULL w'
        <-> existsb refusal evs = true)
    /\ (alloc_policy libc (clock w) 256 = Refuse -> evs = [EvMalloc 256 NULL])
    /\ (log_to_string libc fuel fmt vargs w = Ok NULL w' ->
        heap w' = heap w
        /\ (evs = [EvMalloc 256 NULL]
            \/ exists b size evs0,
                 evs = evs0 ++ [EvRealloc b size NULL; EvFree b]))
    /\ (forall b,
          log_to_string libc fuel fmt vargs w = Ok (Addr b) w' ->
          delete b (heap w') = heap w).
Proof.
  intros Hva Hw.
  destruct (log_to_string_refusal_recorded libc fuel fmt vargs args w w' Hva Hw)
    as (evs & Htr & Hrec & Hrest).
  pose proof (log_to_string_denied libc fuel fmt vargs args w w' evs Hva Hw Htr)
    as Hden.
  exists evs. split; [exact Htr|]. split; [exact Hden|]. split.
  { intros Hgrant Hnull. apply Hden in Hnull.
    rewrite (denied_never libc _ _ Hgrant) in Hnull. discriminate. }
  split; [|split; [exact Hrec|exact Hrest]].
  destruct (existsb refusal evs), (denied libc (clock w) evs);
    try reflexivity.
  - symmetry. apply Hden, Hrec. reflexivity.
  - apply Hrec, Hden. reflexivity.
Qed.

Lemma log_to_string_null_iff_refused_witness :
  let w := world0 [ArgStr (stars 300)] in
  let libc := glibc_low_memory 1 in
  let run := log_to_string libc 8 "%s" 1 w in
  let w' := reached run in
  run = Ok NULL w'
  /\ denied libc (clock w) (trace w') = true
  /\ exists evs,
       trace w' = trace w ++ evs
       /\ (run = Ok NULL w' <-> denied libc (clock w) evs = true)
       /\ ((forall k sz, alloc_policy libc k sz <> Refuse) ->
           run <> Ok NULL w')
       /\ existsb refusal evs = denied libc (clock w) evs
       /\ (run = Ok NULL w' <-> existsb refusal evs = true)
       /\ (alloc_policy libc (clock w) 256 = Refuse ->
           evs = [EvMalloc 256 NULL])
       /\ (run = Ok NULL w' ->
           heap w' = heap w
           /\ (evs = [EvMalloc 256 NULL]
               \/ exists b size evs0,
                    evs = evs0 ++ [EvRealloc b size NULL; EvFree b]))
       /\ (forall b, run = Ok (Addr b) w' -> delete b (heap w') = heap w).
Proof.
  intros w libc run w'. split; [vm_compute; reflexivity|].
  split; [vm_compute; reflexivity|].
  apply (log_to_string_null_iff_refused libc 8 "%s" 1
           [ArgStr (stars 300)] w w').
  - reflexivity.
  - vm_compute. reflexivity.
Defined.

Lemma failing_render_int_valued m policy :
  int_valued (Build_Libc m failing_render policy).
Proof. intros bound fmt args. cbn. unfold INT_MIN, INT_MAX. lia. Qed.

(** C6, as amended: when the allocator refuses every request for more than
    [PTRDIFF_MAX] bytes (and the formatter returns an [int]),
    [log_to_string] terminates on every format string and argument list,
    whatever the formatter reports, negative lengths on every attempt
    included: with enough fuel it returns, and more fuel does not change
    the result. *)
Theorem log_to_string_terminates libc fmt vargs args w :
  refuses_oversize libc ->
  int_valued libc ->
  va_lists w !! vargs = Some args ->
  exists fuel r w',
    forall fuel', (fuel <= fuel')%nat ->
      log_to_string libc fuel' fmt vargs w = Ok r w'.
Proof.
  intros Hover Hint Hva.
  pose proof (malloc_live libc vargs args w Hva) as Hl. cbv zeta in Hl.
  destruct (loop_terminates libc fmt vargs args Hover Hint
              (Z.to_nat (INT_MAX - 255)) _ _ _ _ Hl) as (r & w' & Hrun).
  { lia. }
  { rewrite Z2Nat.id by (unfold INT_MAX; lia). lia. }
  destruct (alloc_policy libc (clock w) 256) eqn:Hpol.
  - eexists 0%nat, _, _. intros fuel' _.
    rewrite log_to_string_unfold, Hpol. reflexivity.
  - exists (Z.to_nat (INT_MAX - 255)), r, w'. intros fuel' Hle.
    rewrite log_to_string_unfold, Hpol. cbv zeta.
    eapply loop_fuel_mono; eauto.
Qed.

Lemma log_to_string_terminates_witness :
  exists fuel r w',
    forall fuel', (fuel <= fuel')%nat ->
      log_to_string broken_libc fuel' "%d" 1 (world0 []) = Ok r w'.
Proof.
  apply (log_to_string_terminates broken_libc "%d" 1 [] (world0 [])).
  - apply bounded_policy_refuses_oversize.
  - apply failing_render_int_valued.
  - reflexivity.
Defined.

(** With that allocator and a formatter that always fails, the 24th
    request, for [2 ^ 64 - 2 ^ 31] bytes, is refused. *)
Example broken_libc_run :
  let o := log_to_string broken_libc 30 "%d" 1 (world0 []) in
  returned o = NULL
  /\ length (attempts (trace (reached o))) = 23%nat
  /\ last (growths (trace (reached o))) = Some INT_MIN.
Proof. vm_compute. repeat split. Qed.

(** The capacities of a run in which every report is negative. *)
Lemma doubling_orbit_step s :
  (s = 0 \/ s = INT_MIN
   \/ exists k : nat, (k <= 22)%nat /\ s = 256 * 2 ^ Z.of_nat k) ->
  (int_wrap (s * 2) = 0 \/ int_wrap (s * 2) = INT_MIN
   \/ exists k : nat, (k <= 22)%nat /\ int_wrap (s * 2) = 256 * 2 ^ Z.of_nat k)
  /\ to_size_t ILP32 (int_wrap (s * 2)) <= 2 ^ 31.
Proof.
  intros [->|[->|(k & Hk & ->)]].
  - split; [left|]; reflexivity || discriminate.
  - split; [left|]; reflexivity || discriminate.
  - destruct (Nat.eq_dec k 22%nat) as [->|Hne].
    + split; [right; left|]; reflexivity || discriminate.
    + assert (Hp : 256 * 2 ^ Z.of_nat (S k) <= 2 ^ 30).
      { change (2 ^ 30) with (256 * 2 ^ 22).
        apply Z.mul_le_mono_nonneg_l; [lia|].
        apply Z.pow_le_mono_r; lia. }
      assert (Hpos : 0 < 2 ^ Z.of_nat (S k)) by (apply Z.pow_pos_nonneg; lia).
      assert (E : 256 * 2 ^ Z.of_nat k * 2 = 256 * 2 ^ Z.of_nat (S k)).
      { rewrite Nat2Z.inj_succ, Z.pow_succ_r by lia. ring. }
      rewrite E, int_wrap_id by (unfold INT_MIN, INT_MAX; lia).
      split.
      * right. right. exists (S k). split; [lia|reflexivity].
      * rewrite to_size_t_id by (unfold INT_MAX; lia). lia.
Qed.

(** C6, as stated, fails: on a 32-bit system whose allocator grants 2 GiB,
    with a formatter that reports a negative length on every attempt, no
    amount of fuel makes [log_to_string] return: the capacity doubles up to
    [2 ^ 30], wraps to [INT_MIN], a request for [2 ^ 31] bytes, then to 0,
    and stays there. *)
Lemma log_to_string_spins :
  (forall size fmt args, report unchecked_broken_libc size fmt args < 0)
  /\ ~ exists fuel r w',
         log_to_string unchecked_broken_libc fuel "%d" 1 (world0 []) = Ok r w'.
Proof.
  split; [intros; cbn; lia|].
  intros (fuel & r & w' & Hrun).
  rewrite log_to_string_unfold in Hrun.
  change (alloc_policy unchecked_broken_libc (clock (world0 [])) 256)
    with (Grant false) in Hrun.
  cbv zeta in Hrun.
  pose proof (malloc_live unchecked_broken_libc 1 [] (world0 []) eq_refl) as Hl.
  cbv zeta in Hl.
  set (P := fun s => s = 0 \/ s = INT_MIN
                     \/ exists k : nat,
                          (k <= 22)%nat /\ s = 256 * 2 ^ Z.of_nat k).
  assert (Hstuck : forall size, P size ->
            fits (report unchecked_broken_libc size "%d" []) size = false
            /\ P (next_size size (report unchecked_broken_libc size "%d" []))
            /\ forall k,
                 alloc_policy unchecked_broken_libc k
                   (to_size_t (model unchecked_broken_libc)
                      (next_size size
                         (report unchecked_broken_libc size "%d" [])))
                 <> Refuse).
  { intros size HP.
    change (next_size size (report unchecked_broken_libc size "%d" []))
      with (int_wrap (size * 2)).
    destruct (doubling_orbit_step size HP) as [HP' Hsz].
    split; [reflexivity|]. split; [exact HP'|].
    intros k. cbn [alloc_policy model unchecked_broken_libc].
    unfold unchecked_policy.
    destruct (Z.leb_spec (to_size_t ILP32 (int_wrap (size * 2))) (2 ^ 31));
      [discriminate|lia]. }
  assert (HP0 : P 256).
  { right. right. exists 0%nat. split; [lia|reflexivity]. }
  destruct (loop_spins unchecked_broken_libc "%d" 1 [] P Hstuck fuel
              _ _ _ _ Hl HP0) as (w2 & evs & Hspin & _).
  rewrite Hspin in Hrun. discriminate.
Qed.

(** C7: [log_to_string] is deterministic.  Two calls with the same format
    string and equal argument values, made on the same platform with the
    same formatter in any two worlds (other heaps, other addresses, other
    handles, other allocators, other fuel), that both return a buffer have
    made the same rendering attempts, with the same capacities in the same
    order, and the same [realloc] requests, and the two buffers are equal
    blocks: same capacity, same bytes, hence the same string. *)
Theorem log_to_string_deterministic libc1 libc2 fmt args fuel1 fuel2
    vargs1 vargs2 w1 w2 b1 b2 w1' w2' :
  model libc1 = model libc2 ->
  render libc1 = render libc2 ->
  va_lists w1 !! vargs1 = Some args ->
  va_lists w2 !! vargs2 = Some args ->
  log_to_string libc1 fuel1 fmt vargs1 w1 = Ok (Addr b1) w1' ->
  log_to_string libc2 fuel2 fmt vargs2 w2 = Ok (Addr b2) w2' ->
  exists evs1 evs2 blk,
    trace w1' = trace w1 ++ evs1
    /\ trace w2' = trace w2 ++ evs2
    /\ attempts evs1 = attempts evs2
    /\ growths evs1 = growths evs2
    /\ heap w1' !! b1 = Some blk
    /\ heap w2' !! b2 = Some blk
    /\ c_string <$> (blk_bytes <$> heap w1' !! b1)
       = c_string <$> (blk_bytes <$> heap w2' !! b2).
Proof.
  intros Hm Hr Hva1 Hva2 Hrun1 Hrun2.
  rewrite log_to_string_unfold in Hrun1, Hrun2.
  destruct (alloc_policy libc1 (clock w1) 256); [discriminate|].
  destruct (alloc_policy libc2 (clock w2) 256); [discriminate|].
  cbv zeta in Hrun1, Hrun2.
  pose proof (malloc_live libc1 vargs1 args w1 Hva1) as Hl1.
  pose proof (malloc_live libc2 vargs2 args w2 Hva2) as Hl2.
  cbv zeta in Hl1, Hl2.
  destruct (loop_deterministic libc1 libc2 fmt args vargs1 vargs2 Hm Hr
              fuel1 fuel2 _ _ _ _ _ _ _ _ _ _ Hl1 Hl2 Hrun1 Hrun2)
    as (evs1 & evs2 & blk & Ht1 & Ht2 & Ha & Hg & Hh1 & Hh2).
  cbn [trace] in Ht1, Ht2. rewrite <- app_assoc in Ht1, Ht2.
  eexists _, _, blk. split; [exact Ht1|]. split; [exact Ht2|].
  cbn [app attempts growths]. rewrite Hh1, Hh2.
  repeat split; assumption.
Qed.

Lemma log_to_string_deterministic_witness :
  let args := [ArgInt 7; ArgStr (stars 300)] in
  let o1 := log_to_string glibc 8 "%d:%s" 1 (world0 args) in
  let o2 := log_to_string in_place_libc 3 "%d:%s" 7 (world2 args) in
  returned o1 = Addr 3 /\ returned o2 = Addr 3
  /\ exists evs1 evs2 blk,
       trace (reached o1) = trace (world0 args) ++ evs1
       /\ trace (reached o2) = trace (world2 args) ++ evs2
       /\ attempts evs1 = attempts evs2
       /\ growths evs1 = growths evs2
       /\ heap (reached o1) !! 3%positive = Some blk
       /\ heap (reached o2) !! 3%positive = Some blk
       /\ c_string <$> (blk_bytes <$> heap (reached o1) !! 3%positive)
          = c_string <$> (blk_bytes <$> heap (reached o2) !! 3%positive).
Proof.
  intros args o1 o2.
  split; [vm_compute; reflexivity|]. split; [vm_compute; reflexivity|].
  apply (log_to_string_deterministic glibc in_place_libc "%d:%s" args 8 3
           1 7 (world0 args) (world2 args) 3 3 (reached o1) (reached o2)).
  - reflexivity.
  - reflexivity.
  - reflexivity.
  - reflexivity.
  - vm_compute. reflexivity.
  - vm_compute. reflexivity.
Defined.

(** C8: every rendering attempt of [log_to_string] reads a handle that was
    duplicated from the caller's argument list just before the attempt and
    is ended just after it; the caller's own argument list is never read,
    and the argument lists are, when the function returns (or at any point
    between two passes), what they were at the call.  No call leaves the
    contract of the library. *)
Theorem log_to_string_preserves_vargs libc fuel fmt vargs args w :
  va_lists w !! vargs = Some args ->
  exists w' evs,
    world_of (log_to_string libc fuel fmt vargs w) = Some w'
    /\ trace w' = trace w ++ evs
    /\ fresh_handles vargs evs = true
    /\ va_lists w' = va_lists w
    /\ va_lists w' !! vargs = Some args.
Proof.
  intros Hva.
  destruct (log_to_string_run libc fuel fmt vargs args w Hva)
    as (w' & r & evs & Hw & Htr & Hfh & Hv).
  exists w', (EvMalloc 256 r :: evs).
  repeat split; try assumption. rewrite Hv. exact Hva.
Qed.

Lemma log_to_string_preserves_vargs_witness :
  let w := world0 [ArgStr (stars 300)] in
  exists w' evs,
    world_of (log_to_string glibc 8 "%s" 1 w) = Some w'
    /\ trace w' = trace w ++ evs
    /\ fresh_handles 1 evs = true
    /\ va_lists w' = va_lists w
    /\ va_lists w' !! 1%positive = Some [ArgStr (stars 300)].
Proof.
  intros w.
  apply (log_to_string_preserves_vargs glibc 8 "%s" 1 [ArgStr (stars 300)] w).
  reflexivity.
Defined.

(** C9: [log_to_string_free] applied to the null pointer is a no-op: it
    returns at once, frees nothing, does not leave the contract of [free],
    and the world (heap, argument lists, allocator calls made, trace) is
    what it was.  By contrast, applied to a non-null pointer it either
    frees a block, which the trace records, or is undefined. *)
Theorem log_to_string_free_null w b :
  log_to_string_free NULL w = Ok tt w
  /\ log_to_string_free (Addr b) w <> Ok tt w.
Proof.
  split; [reflexivity|].
  unfold log_to_string_free, free.
  destruct (heap w !! b); [|discriminate].
  intros [= H]. apply (f_equal (fun u => length (trace u))) in H.
  cbn [trace emit set_heap] in H. rewrite length_app in H. cbn [length] in H.
  lia.
Qed.


(** * Further properties of the two functions *)

(** ** More on byte lists and traces *)

Lemma takeZ_length {A} (l : list A) n :
  0 <= n -> Z.of_nat (length (takeZ n l)) <= n.
Proof.
  revert n. induction l as [|x l IH]; intros n H; cbn [takeZ length]; [lia|].
  destruct (Z.ltb_spec 0 n); cbn [length]; [|lia].
  specialize (IH (n - 1)). lia.
Qed.

Lemma takeZ_shorter {A} (l : list A) n :
  (length (takeZ n l) <= length l)%nat.
Proof.
  revert n. induction l as [|x l IH]; intros n; cbn [takeZ length]; [lia|].
  destruct (0 <? n); cbn [length]; [|lia]. specialize (IH (n - 1)). lia.
Qed.

Lemma overwrite_length new old :
  length (overwrite new old) = Nat.max (length new) (length old).
Proof. unfold overwrite. rewrite length_app, length_drop. lia. Qed.

Lemma to_size_t_nonneg m z : 0 <= to_size_t m z.
Proof.
  unfold to_size_t. apply Z.mod_pos_bound.
  destruct m; cbn [size_bits]; lia.
Qed.

Lemma stored_length libc size fmt args :
  Z.of_nat (length (stored libc size fmt args)) <= to_size_t (model libc) size.
Proof. unfold stored. apply takeZ_length, to_size_t_nonneg. Qed.

Lemma frees_app evs1 evs2 : frees (evs1 ++ evs2) = frees evs1 ++ frees evs2.
Proof.
  induction evs1 as [|e evs1 IH]; [reflexivity|].
  destruct e; cbn [app frees]; rewrite IH; reflexivity.
Qed.

Lemma held_app evs1 evs2 cur :
  held cur (evs1 ++ evs2) = held cur evs1 ≫= fun c => held c evs2.
Proof.
  revert cur. induction evs1 as [|e evs1 IH]; intros cur; [reflexivity|].
  destruct e; cbn [app held].
  - destruct cur; [apply IH|reflexivity].
  - destruct (holds cur b); [apply IH|reflexivity].
  - destruct (holds cur b); [apply IH|reflexivity].
  - apply IH.
  - destruct (holds cur b); [apply IH|reflexivity].
  - apply IH.
Qed.

Lemma holds_refl b : holds (Addr b) b = true.
Proof. apply Pos.eqb_refl. Qed.

(** ** The block that is returned *)

Section Returned.

Variable libc : Libc.
Variables (fmt : string) (vargs : positive) (args : list arg).

Lemma loop_returned_block fuel :
  forall b blk size w p w',
    live libc vargs args b blk size w ->
    Z.of_nat (length (blk_bytes blk)) <= blk_size blk ->
    loop libc fuel fmt vargs (Addr b) size w = Ok (Addr p) w' ->
    exists evs blk' size',
      trace w' = trace w ++ evs
      /\ last (attempts evs) = Some (size', report libc size' fmt args)
      /\ 0 <= report libc size' fmt args < size'
      /\ heap w' !! p = Some blk'
      /\ blk_size blk' = size'
      /\ Z.of_nat (length (blk_bytes blk')) <= size'.
Proof.
  induction fuel as [|fuel IH]; intros b blk size w p w' Hl Hlen Hrun.
  { discriminate. }
  destruct (loop_S libc fmt vargs args fuel b blk size w Hl)
    as (r & w1 & Hp & Heq).
  rewrite Heq in Hrun. clear Heq.
  destruct (pass_trace _ _ _ _ _ _ _ _ _ _ Hp) as (evs1 & Htr1 & Hat1 & _).
  destruct r as [q| |q s1]; [|discriminate|].
  - injection Hrun as -> ->. inversion Hp; subst.
    match goal with H : fits _ _ = true |- _ => apply fits_true in H; rename H into Hfit end.
    pose proof (live_int _ _ _ _ _ _ _ Hl) as Hint.
    pose proof (live_size _ _ _ _ _ _ _ Hl) as Hsz.
    rewrite to_size_t_id in Hsz by lia.
    eexists evs1, (Block _ _), size. split; [exact Htr1|].
    rewrite Hat1. split; [reflexivity|]. split; [exact Hfit|].
    cbn [heap attempted]. split; [apply lookup_insert_eq|].
    cbn [blk_size blk_bytes]. split; [exact Hsz|].
    rewrite overwrite_length, Nat2Z.inj_max.
    pose proof (stored_length libc size fmt args) as Hst.
    rewrite <- (live_size _ _ _ _ _ _ _ Hl), Hsz in Hst. lia.
  - assert (Hb' : exists b', q = Addr b') by (inversion Hp; eauto).
    destruct Hb' as [b' ->].
    destruct (pass_grown_live libc fmt vargs args b blk size w _ _ _ Hl Hp)
      as (blk2 & Hl2 & Hbytes & _).
    assert (Hlen2 : Z.of_nat (length (blk_bytes blk2)) <= blk_size blk2).
    { rewrite Hbytes, (live_size _ _ _ _ _ _ _ Hl2).
      apply takeZ_length, to_size_t_nonneg. }
    destruct (IH _ _ _ _ _ _ Hl2 Hlen2 Hrun)
      as (evs2 & blk' & size' & Htr2 & Hlast & Hfit & Hh & Hcap & Hlen').
    exists (evs1 ++ evs2), blk', size'. split.
    { rewrite Htr2, Htr1, app_assoc. reflexivity. }
    rewrite attempts_app, last_app, Hlast. auto.
Qed.

End Returned.

(** X1: the block that [log_to_string] returns is allocated, its capacity
    is the one the last rendering attempt was made with, the length that
    attempt reported is non-negative and below it, and the bytes stored in
    the block do not exceed it. *)
Theorem log_to_string_returned_block libc fuel fmt vargs args w b w' :
  va_lists w !! vargs = Some args ->
  log_to_string libc fuel fmt vargs w = Ok (Addr b) w' ->
  exists evs blk size,
    trace w' = trace w ++ evs
    /\ last (attempts evs) = Some (size, report libc size fmt args)
    /\ 0 <= report libc size fmt args < size
    /\ heap w' !! b = Some blk
    /\ blk_size blk = size
    /\ Z.of_nat (length (blk_bytes blk)) <= size.
Proof.
  intros Hva Hrun. rewrite log_to_string_unfold in Hrun.
  destruct (alloc_policy libc (clock w) 256); [discriminate|].
  cbv zeta in Hrun.
  pose proof (malloc_live libc vargs args w Hva) as Hl. cbv zeta in Hl.
  destruct (loop_returned_block libc fmt vargs args fuel _ _ _ _ _ _ Hl
              ltac:(cbn; lia) Hrun)
    as (evs & blk & size & Htr & Hlast & Hfit & Hh & Hcap & Hlen).
  exists (EvMalloc 256 (Addr (fresh (dom (heap w)))) :: evs), blk, size.
  cbn [trace] in Htr. rewrite <- app_assoc in Htr.
  repeat split; try assumption; lia.
Qed.

Lemma log_to_string_returned_block_witness :
  let args := [ArgStr (stars 300)] in
  let o := log_to_string glibc_2_0 8 "%s" 1 (world0 args) in
  exists evs blk size,
    trace (reached o) = trace (world0 args) ++ evs
    /\ last (attempts evs) = Some (size, report glibc_2_0 size "%s" args)
    /\ 0 <= report glibc_2_0 size "%s" args < size
    /\ heap (reached o) !! 3%positive = Some blk
    /\ blk_size blk = size
    /\ Z.of_nat (length (blk_bytes blk)) <= size.
Proof.
  intros args o.
  apply (log_to_string_returned_block glibc_2_0 8 "%s" 1 args (world0 args)
           3 (reached o)).
  - reflexivity.
  - vm_compute. reflexivity.
Defined.

(** ** Formatting, then releasing *)

(** X2: releasing what [log_to_string] returned stays within the contract
    of [free] and gives back the heap and the argument lists of before the
    call.  A null result needs no release and the release of one changes
    nothing.  A buffer that is returned is at an address that was not
    allocated before the call, its release is recorded as one [free], and
    releasing it a second time leaves the contract of [free]. *)
Theorem log_to_string_then_free libc fuel fmt vargs args w r w' :
  va_lists w !! vargs = Some args ->
  log_to_string libc fuel fmt vargs w = Ok r w' ->
  exists w'',
    log_to_string_free r w' = Ok tt w''
    /\ heap w'' = heap w
    /\ va_lists w'' = va_lists w
    /\ match r with
       | NULL => w'' = w'
       | Addr b =>
           heap w !! b = None
           /\ trace w'' = trace w' ++ [EvFree b]
           /\ log_to_string_free r w'' = Fault
       end.
Proof.
  intros Hva Hrun.
  assert (Hv : va_lists w' = va_lists w).
  { destruct (log_to_string_run libc fuel fmt vargs args w Hva)
      as (u & r0 & evs & Hu & _ & _ & Hv).
    rewrite Hrun in Hu. injection Hu as <-. exact Hv. }
  rewrite log_to_string_unfold in Hrun.
  destruct (alloc_policy libc (clock w) 256).
  { injection Hrun as <- <-. eexists. repeat split. }
  cbv zeta in Hrun.
  pose proof (malloc_live libc vargs args w Hva) as Hl. cbv zeta in Hl.
  pose proof (loop_heap libc fmt vargs args fuel _ _ _ _ Hl) as Hh.
  rewrite Hrun in Hh. cbn [heap trace] in Hh.
  rewrite (delete_insert_id _ _ _ (fresh_lookup (heap w))) in Hh.
  destruct r as [|b].
  - destruct Hh as (evs & _ & Hh & _).
    exists w'. repeat split; assumption.
  - destruct Hh as (evs & _ & Hh & _).
    destruct (loop_returned_block libc fmt vargs args fuel _ _ _ _ _ _ Hl
                ltac:(cbn; lia) Hrun)
      as (_ & blk & _ & _ & _ & _ & Hb & _).
    unfold log_to_string_free, free. rewrite Hb.
    eexists. split; [reflexivity|].
    cbn [heap va_lists trace emit set_heap].
    split; [exact Hh|]. split; [exact Hv|].
    split; [rewrite <- Hh; apply lookup_delete_eq|].
    split; [reflexivity|].
    rewrite lookup_delete_eq. reflexivity.
Qed.

Lemma log_to_string_then_free_witness :
  let args := [ArgStr (stars 300)] in
  let o := log_to_string glibc 8 "%s" 1 (world0 args) in
  exists w'',
    log_to_string_free (Addr 3) (reached o) = Ok tt w''
    /\ heap w'' = heap (world0 args)
    /\ va_lists w'' = va_lists (world0 args)
    /\ heap (world0 args) !! 3%positive = None
    /\ trace w'' = trace (reached o) ++ [EvFree 3]
    /\ log_to_string_free (Addr 3) w'' = Fault.
Proof.
  intros args o.
  apply (log_to_string_then_free glibc 8 "%s" 1 args (world0 args)
           (Addr 3) (reached o)).
  - reflexivity.
  - vm_compute. reflexivity.
Defined.

(** ** Capacities along a run *)

Section Ascending.

Variable libc : Libc.
Variables (fmt : string) (vargs : positive) (args : list arg).
Hypothesis oversize : refuses_oversize libc.
Hypothesis ints : int_valued libc.


End Ascending.



(** ** Counting the library calls *)

Lemma pass_calls libc fmt vargs args b blk size w r w1 :
  pass_from libc fmt vargs args b blk size w r w1 ->
  exists evs,
    trace w1 = trace w ++ evs
    /\ length (attempts evs) = 1%nat
    /\ length (growths evs) = match r with Break _ => 0%nat | _ => 1%nat end
    /\ frees evs = match r with ReturnNull => [b] | _ => [] end
    /\ held (Addr b) evs
       = Some match r with
              | Break p => p
              | ReturnNull => NULL
              | Continue p _ => p
              end.
Proof.
  intros Hp. inversion Hp; subst; cbn [trace attempted].
  - eexists. split; [reflexivity|].
    cbn [attempts growths frees held length]. rewrite holds_refl. auto.
  - eexists. rewrite <- app_assoc. split; [reflexivity|].
    cbn [app attempts growths frees held length]. rewrite !holds_refl. auto.
  - eexists. rewrite <- app_assoc. split; [reflexivity|].
    cbn [app attempts growths frees held length]. rewrite !holds_refl. auto.
Qed.

Section Calls.

Variable libc : Libc.
Variables (fmt : string) (vargs : positive) (args : list arg).

Lemma loop_calls fuel :
  forall b blk size w,
    live libc vargs args b blk size w ->
    match loop libc fuel fmt vargs (Addr b) size w with
    | Ok r w' =>
        exists evs,
          trace w' = trace w ++ evs
          /\ held (Addr b) evs = Some r
          /\ match r with
             | Addr _ =>
                 length (attempts evs) = S (length (growths evs))
                 /\ frees evs = []
             | NULL =>
                 length (attempts evs) = length (growths evs)
                 /\ (1 <= length (attempts evs))%nat
                 /\ exists b0, frees evs = [b0]
             end
    | Spin w' =>
        exists evs p,
          trace w' = trace w ++ evs
          /\ held (Addr b) evs = Some (Addr p)
          /\ length (attempts evs) = fuel
          /\ length (growths evs) = fuel
          /\ frees evs = []
    | Fault => False
    end.
Proof.
  induction fuel as [|fuel IH]; intros b blk size w Hl.
  { exists [], b. rewrite app_nil_r. repeat split. }
  destruct (loop_S libc fmt vargs args fuel b blk size w Hl)
    as (r1 & w1 & Hp & ->).
  destruct (pass_calls _ _ _ _ _ _ _ _ _ _ Hp)
    as (evs1 & Htr1 & Hat1 & Hgr1 & Hfr1 & Hheld1).
  destruct r1 as [p| |p s1].
  - assert (p = Addr b) as -> by (inversion Hp; reflexivity).
    exists evs1. rewrite Hat1, Hgr1, Hfr1. auto.
  - exists evs1. rewrite Hat1, Hgr1, Hfr1. repeat split; eauto.
  - assert (Hb' : exists b', p = Addr b') by (inversion Hp; eauto).
    destruct Hb' as [b' ->].
    destruct (pass_grown_live libc fmt vargs args b blk size w _ _ _ Hl Hp)
      as (blk2 & Hl2 & _).
    specialize (IH _ _ _ _ Hl2).
    assert (Hcat : forall (u : world) evs2,
              trace u = trace w1 ++ evs2 -> trace u = trace w ++ evs1 ++ evs2).
    { intros u evs2 ->. rewrite Htr1, app_assoc. reflexivity. }
    destruct (loop libc fuel fmt vargs (Addr b') s1 w1) as [r w'| |w'];
      [|contradiction|].
    + destruct IH as (evs2 & Htr2 & Hheld2 & Hres).
      exists (evs1 ++ evs2). split; [apply Hcat, Htr2|].
      rewrite held_app, Hheld1. cbn [mbind option_bind]. split; [exact Hheld2|].
      rewrite attempts_app, growths_app, frees_app, !length_app,
        Hat1, Hgr1, Hfr1.
      destruct r as [|b2].
      * destruct Hres as (Hc & Hge & b0 & Hf). repeat split; eauto; lia.
      * destruct Hres as (Hc & Hf). split; [lia|exact Hf].
    + destruct IH as (evs2 & p & Htr2 & Hheld2 & Ha & Hg & Hf).
      exists (evs1 ++ evs2), p. split; [apply Hcat, Htr2|].
      rewrite held_app, Hheld1. cbn [mbind option_bind]. split; [exact Hheld2|].
      rewrite attempts_app, growths_app, frees_app, !length_app,
        Hat1, Hgr1, Hfr1, Ha, Hg, Hf.
      repeat split.
Qed.

End Calls.

(** X4: how many calls a run of [log_to_string] makes.  A run that returns
    a buffer has made one [realloc] less than it has made rendering
    attempts and has freed nothing.  A run that returns the null pointer
    has either made the one refused [malloc] and nothing else, or at least
    one attempt, as many calls of [realloc] as attempts, and one [free].  A
    run that has not returned after [fuel] passes has made [fuel] attempts
    and [fuel] calls of [realloc], and has freed nothing. *)
Theorem log_to_string_call_counts libc fuel fmt vargs args w w' evs :
  va_lists w !! vargs = Some args ->
  world_of (log_to_string libc fuel fmt vargs w) = Some w' ->
  trace w' = trace w ++ evs ->
  match log_to_string libc fuel fmt vargs w with
  | Ok (Addr _) _ =>
      length (attempts evs) = S (length (growths evs)) /\ frees evs = []
  | Ok NULL _ =>
      evs = [EvMalloc 256 NULL]
      \/ (length (attempts evs) = length (growths evs)
          /\ (1 <= length (attempts evs))%nat
          /\ exists b, frees evs = [b])
  | Spin _ =>
      length (attempts evs) = fuel
      /\ length (growths evs) = fuel
      /\ frees evs = []
  | Fault => False
  end.
Proof.
  intros Hva Hw Htr. rewrite log_to_string_unfold in *.
  destruct (alloc_policy libc (clock w) 256).
  { injection Hw as <-. cbn [trace] in Htr.
    apply app_inv_head in Htr. left. symmetry. exact Htr. }
  cbv zeta in *.
  pose proof (malloc_live libc vargs args w Hva) as Hl. cbv zeta in Hl.
  pose proof (loop_calls libc fmt vargs args fuel _ _ _ _ Hl) as H.
  cbn [trace] in H.
  assert (Hevs : forall evs2,
            trace w' = (trace w ++ [EvMalloc 256 (Addr (fresh (dom (heap w))))])
                         ++ evs2 ->
            evs = EvMalloc 256 (Addr (fresh (dom (heap w)))) :: evs2).
  { intros evs2 E. rewrite <- app_assoc, Htr in E.
    exact (app_inv_head _ _ _ E). }
  destruct (loop libc fuel fmt vargs _ 256 _) as [[|b] u| |u];
    [| | contradiction |]; injection Hw as ->.
  - destruct H as (evs2 & Htr2 & _ & Hres). rewrite (Hevs _ Htr2).
    right. exact Hres.
  - destruct H as (evs2 & Htr2 & _ & Hres). rewrite (Hevs _ Htr2).
    exact Hres.
  - destruct H as (evs2 & p & Htr2 & _ & Hres). rewrite (Hevs _ Htr2).
    exact Hres.
Qed.

Lemma log_to_string_call_counts_witness :
  let w := world0 [ArgStr (stars 300)] in
  let w' := reached (log_to_string (glibc_low_memory 1) 8 "%s" 1 w) in
  match log_to_string (glibc_low_memory 1) 8 "%s" 1 w with
  | Ok (Addr _) _ =>
      length (attempts (trace w')) = S (length (growths (trace w')))
      /\ frees (trace w') = []
  | Ok NULL _ =>
      trace w' = [EvMalloc 256 NULL]
      \/ (length (attempts (trace w')) = length (growths (trace w'))
          /\ (1 <= length (attempts (trace w')))%nat
          /\ exists b, frees (trace w') = [b])
  | Spin _ =>
      length (attempts (trace w')) = 8%nat
      /\ length (growths (trace w')) = 8%nat
      /\ frees (trace w') = []
  | Fault => False
  end.
Proof.
  intros w w'.
  apply (log_to_string_call_counts (glibc_low_memory 1) 8 "%s" 1
           [ArgStr (stars 300)] w w' (trace w')).
  - reflexivity.
  - vm_compute. reflexivity.
  - reflexivity.
Defined.

(** X5: every [vsnprintf], [realloc] and [free] that [log_to_string] calls
    is called on the pointer that the last granted allocation returned,
    never on one that a granted [realloc] has replaced or that has been
    freed, and [malloc] is called only while no pointer is held.  The
    pointer that is returned is the one held after the last call: the
    result of the last granted allocation, or null once the buffer has
    been freed or when [malloc] was refused. *)
Theorem log_to_string_returns_held libc fuel fmt vargs args w w' evs :
  va_lists w !! vargs = Some args ->
  world_of (log_to_string libc fuel fmt vargs w) = Some w' ->
  trace w' = trace w ++ evs ->
  exists p,
    held NULL evs = Some p
    /\ forall r, log_to_string libc fuel fmt vargs w = Ok r w' -> r = p.
Proof.
  intros Hva Hw Htr. rewrite log_to_string_unfold in *.
  destruct (alloc_policy libc (clock w) 256).
  { injection Hw as <-. cbn [trace] in Htr.
    apply app_inv_head in Htr. subst evs.
    exists NULL. split; [reflexivity|]. intros r [= <-]. reflexivity. }
  cbv zeta in *.
  pose proof (malloc_live libc vargs args w Hva) as Hl. cbv zeta in Hl.
  pose proof (loop_calls libc fmt vargs args fuel _ _ _ _ Hl) as H.
  cbn [trace] in H.
  assert (Hevs : forall evs2,
            trace w' = (trace w ++ [EvMalloc 256 (Addr (fresh (dom (heap w))))])
                         ++ evs2 ->
            evs = EvMalloc 256 (Addr (fresh (dom (heap w)))) :: evs2).
  { intros evs2 E. rewrite <- app_assoc, Htr in E.
    exact (app_inv_head _ _ _ E). }
  destruct (loop libc fuel fmt vargs _ 256 _) as [r u| |u];
    [|contradiction|]; injection Hw as ->.
  - destruct H as (evs2 & Htr2 & Hheld & _). rewrite (Hevs _ Htr2).
    exists r. split; [exact Hheld|]. intros r' [= <-]. reflexivity.
  - destruct H as (evs2 & p & Htr2 & Hheld & _). rewrite (Hevs _ Htr2).
    exists (Addr p). split; [exact Hheld|]. discriminate.
Qed.

Lemma log_to_string_returns_held_witness :
  let w := world0 [ArgStr (stars 300)] in
  let o := log_to_string glibc 8 "%s" 1 w in
  exists p,
    held NULL (trace (reached o)) = Some p
    /\ forall r, o = Ok r (reached o) -> r = p.
Proof.
  intros w o.
  apply (log_to_string_returns_held glibc 8 "%s" 1 [ArgStr (stars 300)] w
           (reached o) (trace (reached o))).
  - reflexivity.
  - vm_compute. reflexivity.
  - reflexivity.
Defined.

(** The pointer of that run moves once, from block 2 to block 3. *)
Example held_after_move :
  let o := log_to_string glibc 8 "%s" 1 (world0 [ArgStr (stars 300)]) in
  growths (trace (reached o)) = [301]
  /\ held NULL (trace (reached o)) = Some (Addr 3)
  /\ held NULL (trace (reached o) ++ [EvVsnprintf 2 301 9 300]) = None.
Proof. vm_compute. repeat split. Qed.

(** ** The exact result with a C99 formatter *)

(** X6: with a formatter that meets its contract and reports, whatever the
    capacity, the same length [L] below [INT_MAX], the block that
    [log_to_string] returns has a capacity of exactly 256 bytes when
    [L < 256] and of exactly [L + 1] bytes otherwise, and holds the text
    and its terminator and nothing else: the initial buffer is never
    shrunk, and a buffer that grew has no byte to spare. *)
Theorem log_to_string_exact_block libc text fuel fmt vargs args w b w' L :
  conforming libc text ->
  (forall bound, (render libc bound fmt args).1.1 = L) ->
  0 <= L < INT_MAX ->
  va_lists w !! vargs = Some args ->
  log_to_string libc fuel fmt vargs w = Ok (Addr b) w' ->
  heap w' !! b = Some (Block (Z.max 256 (L + 1)) (text fmt args ++ [x00]))
  /\ Z.of_nat (length (text fmt args)) = L.
Proof.
  intros Hc HL Hrange Hva Hrun.
  assert (Hrep : forall size, report libc size fmt args = L)
    by (intros; apply HL).
  rewrite log_to_string_unfold in Hrun.
  destruct (alloc_policy libc (clock w) 256); [discriminate|].
  cbv zeta in Hrun.
  pose proof (malloc_live libc vargs args w Hva) as Hl. cbv zeta in Hl.
  destruct fuel as [|fuel]; [discriminate|].
  destruct (loop_S libc fmt vargs args fuel _ _ _ _ Hl)
    as (r1 & w1 & Hp1 & Heq).
  rewrite Heq in Hrun. clear Heq.
  destruct r1 as [p1| |p1 s1]; [|discriminate|].
  - injection Hrun as -> ->. inversion Hp1; subst.
    match goal with H : fits _ _ = true |- _ => rename H into Hfit end.
    destruct (fitting_attempt libc fmt args text 256 Hc
                (live_int _ _ _ _ _ _ _ Hl) Hfit) as [Hn Hst].
    rewrite Hrep in Hfit, Hn. apply fits_true in Hfit.
    split; [|symmetry; exact Hn].
    cbn [heap attempted]. rewrite lookup_insert_eq.
    cbn [blk_size blk_bytes]. rewrite Hst, overwrite_nil.
    rewrite Z.max_l by lia. reflexivity.
  - assert (Hb' : exists b', p1 = Addr b') by (inversion Hp1; eauto).
    destruct Hb' as [b' ->].
    destruct (pass_grown_live libc fmt vargs args _ _ _ _ _ _ _ Hl Hp1)
      as (blk2 & Hl2 & Hbytes & _ & _ & Hsz & Hfit1 & _).
    rewrite Hrep in Hsz, Hfit1. apply fits_false in Hfit1.
    assert (Hs1 : s1 = L + 1).
    { rewrite Hsz. unfold next_size.
      destruct (Z.ltb_spec (-1) L); [|lia].
      apply int_wrap_id. unfold INT_MIN, INT_MAX in *. lia. }
    clear Hsz. subst s1.
    destruct fuel as [|fuel]; [discriminate|].
    destruct (loop_S libc fmt vargs args fuel _ _ _ _ Hl2)
      as (r2 & w2 & Hp2 & Heq).
    rewrite Heq in Hrun. clear Heq.
    assert (Hfit2 : fits (report libc (L + 1) fmt args) (L + 1) = true)
      by (rewrite Hrep; apply fits_true; lia).
    inversion Hp2; subst; try congruence.
    injection Hrun as <- <-.
    destruct (fitting_attempt libc fmt args text (L + 1) Hc
                (live_int _ _ _ _ _ _ _ Hl2) Hfit2) as [Hn Hst].
    rewrite Hrep in Hn. split; [|symmetry; exact Hn].
    cbn [heap attempted]. rewrite lookup_insert_eq. f_equal.
    rewrite (live_size _ _ _ _ _ _ _ Hl2), to_size_t_id by lia.
    rewrite Z.max_r by lia. f_equal.
    rewrite Hst. unfold overwrite. rewrite drop_ge, app_nil_r; [reflexivity|].
    rewrite Hbytes, length_app. cbn [length blk_bytes].
    rewrite overwrite_nil.
    pose proof (takeZ_length (stored libc 256 fmt args)
                  (to_size_t (model libc) (L + 1)) (to_size_t_nonneg _ _)).
    pose proof (takeZ_length (stored libc 256 fmt args) 256 ltac:(lia)).
    pose proof (stored_length libc 256 fmt args) as H256.
    rewrite to_size_t_id in H256 by (unfold INT_MAX; lia).
    pose proof (takeZ_shorter (stored libc 256 fmt args)
                  (to_size_t (model libc) (L + 1))).
    lia.
Qed.

Lemma log_to_string_exact_block_witness :
  let args := [ArgStr (stars 300)] in
  let o := log_to_string glibc 8 "%s" 1 (world0 args) in
  heap (reached o) !! 3%positive
  = Some (Block (Z.max 256 (300 + 1)) (c99_text "%s" args ++ [x00]))
  /\ Z.of_nat (length (c99_text "%s" args)) = 300.
Proof.
  intros args o.
  apply (log_to_string_exact_block glibc c99_text 8 "%s" 1 args (world0 args)
           3 (reached o) 300).
  - apply c99_render_conforming.
  - intros bound. reflexivity.
  - unfold INT_MAX. lia.
  - reflexivity.
  - vm_compute. reflexivity.
Defined.

(** ** Growing to a reported length *)



(** Closes the counting part of the statement below once the attempts and
    the growths of the run are explicit lists. *)
Ltac two_attempts_tail :=
  split; [simpl; lia|];
  split; [simpl; lia|];
  split;
  [ let Hin := fresh "Hin" in
    intros ? Hin; simpl in Hin;
    repeat (apply elem_of_cons in Hin as [->|Hin]; [reflexivity|]);
    apply elem_of_nil in Hin; destruct Hin
  | let Hk := fresh "Hk" in
    intros ? ? Hk; simpl in Hk; try discriminate ].

(** X8: when the formatter reports, whatever the capacity, the same length
    [L] with [0 <= L < INT_MAX], [log_to_string] returns after at most two
    rendering attempts and at most one [realloc]: the [realloc] asks for
    [L + 1] bytes, and the second attempt, made with that capacity, meets
    the success condition. *)
Theorem log_to_string_two_attempts libc fuel fmt vargs args w L :
  va_lists w !! vargs = Some args ->
  (forall bound, (render libc bound fmt args).1.1 = L) ->
  0 <= L < INT_MAX ->
  (2 <= fuel)%nat ->
  exists r w' evs,
    log_to_string libc fuel fmt vargs w = Ok r w'
    /\ trace w' = trace w ++ evs
    /\ (length (attempts evs) <= 2)%nat
    /\ (length (growths evs) <= 1)%nat
    /\ (forall size, size ∈ growths evs -> size = L + 1)
    /\ (forall size n,
          attempts evs !! 1%nat = Some (size, n) ->
          size = L + 1 /\ n = L /\ fits n size = true).
Proof.
  intros Hva HL Hrange Hfuel.
  assert (Hrep : forall size, report libc size fmt args = L)
    by (intros; apply HL).
  destruct fuel as [|[|fuel]]; try lia.
  rewrite log_to_string_unfold.
  destruct (alloc_policy libc (clock w) 256).
  { eexists _, _, [_]. split; [reflexivity|]. split; [reflexivity|].
    cbn [attempts growths]. two_attempts_tail. }
  cbv zeta.
  pose proof (malloc_live libc vargs args w Hva) as Hl. cbv zeta in Hl.
  destruct (loop_S libc fmt vargs args (S fuel) _ _ _ _ Hl)
    as (r1 & w1 & Hp1 & ->).
  destruct (pass_trace _ _ _ _ _ _ _ _ _ _ Hp1) as (evs1 & Htr1 & Hat1 & Hgr1 & _).
  cbn [trace] in Htr1. rewrite <- app_assoc in Htr1.
  rewrite Hrep in *.
  assert (Hnext : fits L 256 = false -> next_size 256 L = L + 1).
  { intros Hf%fits_false. unfold next_size.
    destruct (Z.ltb_spec (-1) L); [|lia].
    apply int_wrap_id. unfold INT_MIN, INT_MAX in *. lia. }
  destruct r1 as [p1| |p1 size1].
  - exists p1, w1, (EvMalloc 256 (Addr (fresh (dom (heap w)))) :: evs1).
    split; [reflexivity|]. split; [exact Htr1|].
    cbn [attempts growths]. rewrite Hat1, Hgr1. two_attempts_tail.
  - exists NULL, w1, (EvMalloc 256 (Addr (fresh (dom (heap w)))) :: evs1).
    split; [reflexivity|]. split; [exact Htr1|].
    assert (Hfit : fits L 256 = false)
      by (inversion Hp1; subst; rewrite Hrep in *; assumption).
    cbn [attempts growths]. rewrite Hat1, Hgr1, Hnext by assumption.
    two_attempts_tail.
  - assert (Hb' : exists b', p1 = Addr b') by (inversion Hp1; eauto).
    destruct Hb' as [b' ->].
    destruct (pass_grown_live libc fmt vargs args _ _ _ _ _ _ _ Hl Hp1)
      as (blk2 & Hl2 & _ & _ & _ & Hsz & Hfit & _).
    rewrite Hrep in *. rewrite Hnext in * by assumption. subst size1.
    destruct (loop_S libc fmt vargs args fuel _ _ _ _ Hl2)
      as (r2 & w2 & Hp2 & ->).
    destruct (pass_trace _ _ _ _ _ _ _ _ _ _ Hp2)
      as (evs2 & Htr2 & Hat2 & Hgr2 & _).
    rewrite Hrep in *.
    assert (Hfit2 : fits L (L + 1) = true) by (apply fits_true; lia).
    assert (Hr2 : exists p2, r2 = Break p2).
    { inversion Hp2; subst; rewrite Hrep in *; [eauto|congruence|congruence]. }
    destruct Hr2 as [p2 ->].
    exists p2, w2,
      (EvMalloc 256 (Addr (fresh (dom (heap w)))) :: evs1 ++ evs2).
    split; [reflexivity|]. split.
    { rewrite Htr2, Htr1, <- app_assoc. reflexivity. }
    cbn [attempts growths].
    rewrite attempts_app, growths_app, Hat1, Hgr1, Hat2, Hgr2.
    two_attempts_tail. injection Hk as <- <-. auto.
Qed.

Lemma log_to_string_two_attempts_witness :
  let args := [ArgStr (stars 300)] in
  let w := world0 args in
  exists r w' evs,
    log_to_string glibc 8 "%s" 1 w = Ok r w'
    /\ trace w' = trace w ++ evs
    /\ (length (attempts evs) <= 2)%nat
    /\ (length (growths evs) <= 1)%nat
    /\ (forall size, size ∈ growths evs -> size = 300 + 1)
    /\ (forall size n,
          attempts evs !! 1%nat = Some (size, n) ->
          size = 300 + 1 /\ n = 300 /\ fits n size = true).
Proof.
  intros args w.
  apply (log_to_string_two_attempts glibc 8 "%s" 1 args w 300).
  - reflexivity.
  - intros bound. reflexivity.
  - unfold INT_MAX. lia.
  - lia.
Defined.
